(** * PeerGroup: the peer-connection pool manager of bitcoin-net

    A shallow embedding of [src/peerGroup.js].  The [PeerGroup] object is a
    record; its methods are computations in a small state monad over that
    record; the closures the methods register (event listeners, timers,
    discovery callbacks) are defunctionalised into tags, and the event loop
    is a [step] function that delivers one event of the environment to the
    closure registered for it.

    The collaborators the source only calls (the [Peer] class, the
    peer-exchange transport, [dns], [net], timers) are modelled at their
    interface: every call the pool makes to them is appended to the [trace],
    and every callback or event they send back is an [Event] of the
    environment.  In particular [peer.disconnect()] is a call, and the
    'disconnect' event of that peer an event of its own.  Emitters follow
    Node's rule for 'error': emitted with no listener attached, it is
    thrown.

    [_connectPeer] and [_onConnection] call each other without a base case
    they are sure to reach, so [_connectPeer] recurses on fuel, and a run
    that exhausts it stands for a call that does not return.

    [accept] and [unaccept] are modelled apart, on the fields only they use.
    Not modelled: [createHeaderStream], [createBlockStream] and the 'error'
    event of the exchange. *)

From stdpp Require Import base list strings.

Open Scope Z_scope.

(** ** JavaScript values *)

(** The values the constructor's arguments take: the tests the source
    applies to them are truthiness ([!x], [x || d]) and [x == null]. *)
Inductive JSVal :=
  | JUndefined
  | JNull
  | JBool (b : bool)
  | JNum (n : Z)
  | JStr (s : string).

Global Instance JSVal_eq_dec : EqDecision JSVal.
Proof. solve_decision. Defined.

Definition truthy (v : JSVal) : bool :=
  match v with
  | JUndefined | JNull => false
  | JBool b => b
  | JNum n => negb (n =? 0)
  | JStr s => negb (String.eqb s EmptyString)
  end.

(** [v == null] *)
Definition nullish (v : JSVal) : bool :=
  match v with
  | JUndefined | JNull => true
  | _ => false
  end.

(** [typeof v === 'string'] *)
Definition is_string (v : JSVal) : bool :=
  match v with
  | JStr _ => true
  | _ => false
  end.

(** [a || b] *)
Definition js_or (a b : JSVal) : JSVal := if truthy a then a else b.

(** ** Errors *)

Inductive Error :=
  | ErrInvalidParams      (* 'Invalid network parameters' *)
  | ErrNoMethods          (* 'No methods available to get new peers' *)
  | ErrTimedOut           (* 'Connection timed out' *)
  | ErrConnection         (* 'Connection error' *)
  | ErrNotConnected       (* 'Not connected to any peers' *)
  | ErrExternal (msg : string). (* an error made by a collaborator *)

Global Instance Error_eq_dec : EqDecision Error.
Proof. solve_decision. Defined.

(** ** Network parameters and options *)

(** An entry of [params.webSeeds]: an address string, or an object
    [{ transport, address, opts }]. *)
Inductive WebSeed :=
  | SeedString (address : string)
  | SeedSpec (transport : string) (address : string) (opts : JSVal).

(** [dnsSeeds], [staticPeers] and [webSeeds] are lists: every use in the
    source is guarded by [x && x.length > 0], which does not tell an absent
    list from an empty one.  [getNewPeer] records whether the params carry
    the discovery hook. *)
Record Params := {
  id : JSVal;
  magic : JSVal;
  defaultPort : JSVal;
  protocolVersion : JSVal;
  defaultWebPort : JSVal;
  dnsSeeds : list string;
  staticPeers : list string;
  webSeeds : list WebSeed;
  getNewPeer : bool
}.

(** [opts.numPeers] is a number or absent; the other options are tested for
    truthiness only. *)
Record Opts := {
  o_numPeers : option Z;
  o_hardLimit : JSVal;
  o_connectWeb : JSVal;
  o_connectTimeout : JSVal;
  o_handshakeTimeout : JSVal
}.

(** [{}] *)
Definition no_opts : Opts :=
  {| o_numPeers := None; o_hardLimit := JUndefined; o_connectWeb := JUndefined;
     o_connectTimeout := JUndefined; o_handshakeTimeout := JUndefined |}.

(** ** Peers, sockets, listeners *)

(** A peer object is known by its identity: [Dialed n] is the [n]-th peer
    made by [new Peer] in [_onConnection], [Manual n] a peer the caller made
    and hands to [addPeer]. *)
Inductive PeerId :=
  | Dialed (n : nat)
  | Manual (n : nat).

Global Instance PeerId_eq_dec : EqDecision PeerId.
Proof. solve_decision. Defined.

(** A socket: the one [net.connect] returned to connection attempt [aid], or
    one handed over by the peer-exchange transport. *)
Inductive Socket :=
  | TcpSocket (aid : nat)
  | ExchangeSocket (n : nat).

(** The closures the pool registers on a peer. *)
Inductive Handler :=
  | OnError          (* [onError] of [_onConnection] *)
  | OnReady          (* the 'ready' closure of [_onConnection] *)
  | OnceReadyAdd     (* [() => this.addPeer(peer)] of [addPeer] *)
  | OnDisconnect     (* the 'disconnect' closure of [addPeer] *)
  | OnPeerError.     (* the 'error' closure of [addPeer] *)

Global Instance Handler_eq_dec : EqDecision Handler.
Proof. solve_decision. Defined.

Record Listener := { l_fn : Handler; l_once : bool }.

Global Instance Listener_eq_dec : EqDecision Listener.
Proof. solve_decision. Defined.

Inductive PeerEvent := EvError | EvDisconnect | EvReady.

(** The part of a [Peer] the pool reads or writes: its [ready] flag, the
    socket it wraps and its listeners, per event, in registration order. *)
Record PeerObj := {
  ready : bool;
  socket : option Socket;
  on_error : list Listener;
  on_disconnect : list Listener;
  on_ready : list Listener
}.

(** A peer nobody touched yet: not ready, no listeners. *)
Definition fresh_peer (s : option Socket) : PeerObj :=
  {| ready := false; socket := s; on_error := []; on_disconnect := [];
     on_ready := [] |}.

Definition listeners (ev : PeerEvent) (o : PeerObj) : list Listener :=
  match ev with
  | EvError => on_error o
  | EvDisconnect => on_disconnect o
  | EvReady => on_ready o
  end.

Definition set_listeners (ev : PeerEvent) (ls : list Listener) (o : PeerObj)
  : PeerObj :=
  match ev with
  | EvError =>
      {| ready := ready o; socket := socket o; on_error := ls;
         on_disconnect := on_disconnect o; on_ready := on_ready o |}
  | EvDisconnect =>
      {| ready := ready o; socket := socket o; on_error := on_error o;
         on_disconnect := ls; on_ready := on_ready o |}
  | EvReady =>
      {| ready := ready o; socket := socket o; on_error := on_error o;
         on_disconnect := on_disconnect o; on_ready := ls |}
  end.

Definition set_ready (b : bool) (o : PeerObj) : PeerObj :=
  {| ready := b; socket := socket o; on_error := on_error o;
     on_disconnect := on_disconnect o; on_ready := on_ready o |}.

(** [removeListener(name, fn)]: drops the most recently added listener whose
    function is [fn]. *)
Fixpoint remove_first (h : Handler) (ls : list Listener) : list Listener :=
  match ls with
  | [] => []
  | l :: ls' => if decide (l_fn l = h) then ls' else l :: remove_first h ls'
  end.

Definition removeListener (h : Handler) (ls : list Listener) : list Listener :=
  reverse (remove_first h (reverse ls)).

(** ** Connection attempts *)

(** The discovery methods [_connectPeer] chooses from. *)
Inductive Method :=
  | DNSPeer            (* [this._connectDNSPeer] *)
  | StaticPeer         (* [this._connectStaticPeer] *)
  | ExchangeNewPeer    (* [this._exchange.getNewPeer] *)
  | ParamsNewPeer.     (* [this._params.getNewPeer] *)

Global Instance Method_eq_dec : EqDecision Method.
Proof. solve_decision. Defined.

(** The timer [_connectPeer] sets: none when [connectTimeout] is falsy;
    otherwise armed until it fires or [clearTimeout] is called on it. *)
Inductive TimerState := NoTimer | Armed | Fired | Cleared.

Global Instance TimerState_eq_dec : EqDecision TimerState.
Proof. solve_decision. Defined.

(** Where the chosen method stands: waiting for [dns.resolve], for the
    socket of [_connectTCP] (with its one-time 'error' and 'connect'
    listeners still attached or not), or for the callback of an external
    method. *)
Inductive Phase :=
  | Idle
  | Resolving
  | Connecting (errorListener connectListener : bool)
  | Awaiting
  | Finished.

(** One call of [_connectPeer] that chose a method: the local variables
    [timedOut] and [timeout] its closures share, and the method's progress. *)
Record Attempt := {
  a_method : Method;
  a_timer : TimerState;
  a_timedOut : bool;
  a_phase : Phase
}.

Definition set_timer (t : TimerState) (a : Attempt) : Attempt :=
  {| a_method := a_method a; a_timer := t; a_timedOut := a_timedOut a;
     a_phase := a_phase a |}.

Definition set_timedOut (b : bool) (a : Attempt) : Attempt :=
  {| a_method := a_method a; a_timer := a_timer a; a_timedOut := b;
     a_phase := a_phase a |}.

Definition set_phase (p : Phase) (a : Attempt) : Attempt :=
  {| a_method := a_method a; a_timer := a_timer a; a_timedOut := a_timedOut a;
     a_phase := p |}.

(** ** Effects *)

(** What the pool does to the outside: the events it emits and the calls it
    makes to its collaborators, in order. *)
Inductive Effect :=
  | EmitConnectError (e : Error) (p : option PeerId)
  | EmitPeer (p : PeerId)
  | EmitDisconnect (p : PeerId)
  | EmitPeerError (e : option Error)
  | PeerDisconnect (p : PeerId)                        (* [peer.disconnect()] *)
  | PeerSend (p : PeerId) (command payload : string)   (* [peer.send(..)] *)
  | NetConnect (port : JSVal) (host : option string) (s : Socket)
  | SocketSetTimeout (s : Socket) (ms : Z)
  | DnsResolve (seed : option string) (aid : nat)
  | ExchangeGetNewPeer (aid : nat)
  | ParamsGetNewPeer (aid : nat)
  | ExchangeConnect (transport address : string) (opts : JSVal)
  | SetTimeout (aid : nat) (ms : JSVal)
  | ClearTimeout (aid : nat).

Definition is_emit (e : Effect) : bool :=
  match e with
  | EmitConnectError _ _ | EmitPeer _ | EmitDisconnect _ | EmitPeerError _ =>
      true
  | _ => false
  end.

(** ** The pool *)

(** The closure [onPeer] of [connect()]: its counter [i] and its bound
    [nSeeds]. *)
Record OnPeer := { op_i : Z; op_nSeeds : Z }.

(** The fields of the [PeerGroup] object, then the part of the world its
    methods read: [process.browser], the number of peers the exchange holds,
    the peer objects, the connection attempts under way, and the source of
    [Math.random] ([random k] is the [k]-th draw).  [issued] counts the calls
    of [_connectPeer]. *)
Record PeerGroup := {
  _params : Params;
  _numPeers : Z;
  peers : list PeerId;
  _hardLimit : JSVal;
  _connectWeb : JSVal;
  connectTimeout : JSVal;
  handshakeTimeout : JSVal;
  connecting : bool;
  peerListeners : list OnPeer;
  process_browser : JSVal;
  exchange_peers : nat;
  heap : PeerId -> PeerObj;
  next_peer : nat;
  attempts : list Attempt;
  random : nat -> nat;
  draws : nat;
  trace : list Effect;
  issued : nat
}.

(** ** Construction *)

Definition DEFAULT_PXP_PORT : Z := 8192.

(** [assertParams]: [None] is a null or undefined [params]. *)
Definition assertParams (params : option Params) : option Error :=
  match params with
  | None => Some ErrInvalidParams
  | Some p =>
      if negb (truthy (id p)) || nullish (magic p)
         || negb (truthy (defaultPort p))
      then Some ErrInvalidParams
      else None
  end.

(** The body of the constructor after [assertParams(params)]. *)
Definition init (browser : JSVal) (rnd : nat -> nat) (p : Params)
    (opts : option Opts) : PeerGroup :=
  let opts := default no_opts opts in
  {| _params := p;
     _numPeers :=
       match o_numPeers opts with
       | Some n => if n =? 0 then 8 else n
       | None => 8
       end;
     peers := [];
     _hardLimit := js_or (o_hardLimit opts) (JBool false);
     _connectWeb :=
       if negb (nullish (o_connectWeb opts)) then o_connectWeb opts
       else browser;
     connectTimeout := js_or (o_connectTimeout opts) (JNum (5 * 1000));
     handshakeTimeout := js_or (o_handshakeTimeout opts) (JNum (5 * 1000));
     connecting := false;
     peerListeners := [];
     process_browser := browser;
     exchange_peers := 0;
     heap := fun _ => fresh_peer None;
     next_peer := 0;
     attempts := [];
     random := rnd;
     draws := 0;
     trace := [];
     issued := 0 |}.

(** [exchange(params.id, { wrtc })]: the constructor of the peer-exchange
    library is handed the network id and throws 'A network id must be
    specified' unless the id is a non-empty string; [None] when it
    returns. *)
Definition exchange (id : JSVal) : option Error :=
  match id with
  | JStr (String _ _) => None
  | _ => Some (ErrExternal "A network id must be specified")
  end.

(** The constructor, given [process.browser] and the random source.  It
    throws (left) the error of [assertParams] before it sets any field, or
    the error of [exchange(params.id, ...)] once the fields are set, and
    otherwise returns the new object (right). *)
Definition constructor (browser : JSVal) (rnd : nat -> nat)
    (params : option Params) (opts : option Opts) : Error + PeerGroup :=
  match assertParams params, params with
  | None, Some p =>
      match exchange (id p) with
      | Some e => inl e
      | None => inr (init browser rnd p opts)
      end
  | Some e, _ => inl e
  | None, None => inl ErrInvalidParams
  end.

(** ** Field updates *)

Definition with_peers (v : list PeerId) (g : PeerGroup) : PeerGroup :=
  {| _params := _params g; _numPeers := _numPeers g; peers := v;
     _hardLimit := _hardLimit g; _connectWeb := _connectWeb g;
     connectTimeout := connectTimeout g;
     handshakeTimeout := handshakeTimeout g; connecting := connecting g;
     peerListeners := peerListeners g; process_browser := process_browser g;
     exchange_peers := exchange_peers g; heap := heap g;
     next_peer := next_peer g; attempts := attempts g; random := random g;
     draws := draws g; trace := trace g; issued := issued g |}.

Definition with_connecting (v : bool) (g : PeerGroup) : PeerGroup :=
  {| _params := _params g; _numPeers := _numPeers g; peers := peers g;
     _hardLimit := _hardLimit g; _connectWeb := _connectWeb g;
     connectTimeout := connectTimeout g;
     handshakeTimeout := handshakeTimeout g; connecting := v;
     peerListeners := peerListeners g; process_browser := process_browser g;
     exchange_peers := exchange_peers g; heap := heap g;
     next_peer := next_peer g; attempts := attempts g; random := random g;
     draws := draws g; trace := trace g; issued := issued g |}.

Definition with_peerListeners (v : list OnPeer) (g : PeerGroup) : PeerGroup :=
  {| _params := _params g; _numPeers := _numPeers g; peers := peers g;
     _hardLimit := _hardLimit g; _connectWeb := _connectWeb g;
     connectTimeout := connectTimeout g;
     handshakeTimeout := handshakeTimeout g; connecting := connecting g;
     peerListeners := v; process_browser := process_browser g;
     exchange_peers := exchange_peers g; heap := heap g;
     next_peer := next_peer g; attempts := attempts g; random := random g;
     draws := draws g; trace := trace g; issued := issued g |}.

Definition with_exchange_peers (v : nat) (g : PeerGroup) : PeerGroup :=
  {| _params := _params g; _numPeers := _numPeers g; peers := peers g;
     _hardLimit := _hardLimit g; _connectWeb := _connectWeb g;
     connectTimeout := connectTimeout g;
     handshakeTimeout := handshakeTimeout g; connecting := connecting g;
     peerListeners := peerListeners g; process_browser := process_browser g;
     exchange_peers := v; heap := heap g;
     next_peer := next_peer g; attempts := attempts g; random := random g;
     draws := draws g; trace := trace g; issued := issued g |}.

Definition with_heap (v : PeerId -> PeerObj) (g : PeerGroup) : PeerGroup :=
  {| _params := _params g; _numPeers := _numPeers g; peers := peers g;
     _hardLimit := _hardLimit g; _connectWeb := _connectWeb g;
     connectTimeout := connectTimeout g;
     handshakeTimeout := handshakeTimeout g; connecting := connecting g;
     peerListeners := peerListeners g; process_browser := process_browser g;
     exchange_peers := exchange_peers g; heap := v;
     next_peer := next_peer g; attempts := attempts g; random := random g;
     draws := draws g; trace := trace g; issued := issued g |}.

Definition with_next_peer (v : nat) (g : PeerGroup) : PeerGroup :=
  {| _params := _params g; _numPeers := _numPeers g; peers := peers g;
     _hardLimit := _hardLimit g; _connectWeb := _connectWeb g;
     connectTimeout := connectTimeout g;
     handshakeTimeout := handshakeTimeout g; connecting := connecting g;
     peerListeners := peerListeners g; process_browser := process_browser g;
     exchange_peers := exchange_peers g; heap := heap g;
     next_peer := v; attempts := attempts g; random := random g;
     draws := draws g; trace := trace g; issued := issued g |}.

Definition with_attempts (v : list Attempt) (g : PeerGroup) : PeerGroup :=
  {| _params := _params g; _numPeers := _numPeers g; peers := peers g;
     _hardLimit := _hardLimit g; _connectWeb := _connectWeb g;
     connectTimeout := connectTimeout g;
     handshakeTimeout := handshakeTimeout g; connecting := connecting g;
     peerListeners := peerListeners g; process_browser := process_browser g;
     exchange_peers := exchange_peers g; heap := heap g;
     next_peer := next_peer g; attempts := v; random := random g;
     draws := draws g; trace := trace g; issued := issued g |}.

Definition with_draws (v : nat) (g : PeerGroup) : PeerGroup :=
  {| _params := _params g; _numPeers := _numPeers g; peers := peers g;
     _hardLimit := _hardLimit g; _connectWeb := _connectWeb g;
     connectTimeout := connectTimeout g;
     handshakeTimeout := handshakeTimeout g; connecting := connecting g;
     peerListeners := peerListeners g; process_browser := process_browser g;
     exchange_peers := exchange_peers g; heap := heap g;
     next_peer := next_peer g; attempts := attempts g; random := random g;
     draws := v; trace := trace g; issued := issued g |}.

Definition with_trace (v : list Effect) (g : PeerGroup) : PeerGroup :=
  {| _params := _params g; _numPeers := _numPeers g; peers := peers g;
     _hardLimit := _hardLimit g; _connectWeb := _connectWeb g;
     connectTimeout := connectTimeout g;
     handshakeTimeout := handshakeTimeout g; connecting := connecting g;
     peerListeners := peerListeners g; process_browser := process_browser g;
     exchange_peers := exchange_peers g; heap := heap g;
     next_peer := next_peer g; attempts := attempts g; random := random g;
     draws := draws g; trace := v; issued := issued g |}.

Definition with_issued (v : nat) (g : PeerGroup) : PeerGroup :=
  {| _params := _params g; _numPeers := _numPeers g; peers := peers g;
     _hardLimit := _hardLimit g; _connectWeb := _connectWeb g;
     connectTimeout := connectTimeout g;
     handshakeTimeout := handshakeTimeout g; connecting := connecting g;
     peerListeners := peerListeners g; process_browser := process_browser g;
     exchange_peers := exchange_peers g; heap := heap g;
     next_peer := next_peer g; attempts := attempts g; random := random g;
     draws := draws g; trace := trace g; issued := v |}.

(** ** The monad of the methods *)

(** A method returns a value and a new state, throws, or (the model of a
    recursion that does not end) runs out of fuel. *)
Inductive outcome (A : Type) :=
  | Ret (a : A) (g : PeerGroup)
  | Throw (e : Error) (g : PeerGroup)
  | OutOfFuel.
Arguments Ret {A} a g.
Arguments Throw {A} e g.
Arguments OutOfFuel {A}.

Definition M (A : Type) : Type := PeerGroup -> outcome A.

Global Instance M_ret : MRet M := fun A a g => Ret a g.

Global Instance M_bind : MBind M := fun A B f m g =>
  match m g with
  | Ret a g' => f a g'
  | Throw e g' => Throw e g'
  | OutOfFuel => OutOfFuel
  end.

Definition gets {A} (f : PeerGroup -> A) : M A := fun g => Ret (f g) g.
Definition modify (f : PeerGroup -> PeerGroup) : M unit := fun g => Ret tt (f g).
Definition throw {A} (e : Error) : M A := fun g => Throw e g.
Definition diverge {A} : M A := fun _ => OutOfFuel.

(** [for (x of l) body(x)] *)
Fixpoint for_of {A} (l : list A) (body : A -> M unit) : M unit :=
  match l with
  | [] => mret tt
  | x :: l' => body x ;; for_of l' body
  end.

(** [for (i = 0; i < n; i++) body()] *)
Fixpoint times (n : nat) (body : M unit) : M unit :=
  match n with
  | O => mret tt
  | S n' => body ;; times n' body
  end.

Definition when (b : bool) (m : M unit) : M unit := if b then m else mret tt.

(** ** Primitive operations *)

Definition log (e : Effect) : M unit :=
  modify (fun g => with_trace (trace g ++ [e]) g).

(** The events emitted so far. *)
Definition emitted (g : PeerGroup) : list Effect := filter is_emit (trace g).

Definition upd_heap (p : PeerId) (f : PeerObj -> PeerObj)
    (h : PeerId -> PeerObj) : PeerId -> PeerObj :=
  fun q => if decide (q = p) then f (h p) else h q.

Definition upd_peer (p : PeerId) (f : PeerObj -> PeerObj) : M unit :=
  modify (fun g => with_heap (upd_heap p f (heap g)) g).

(** [peer.on(ev, h)] and [peer.once(ev, h)] *)
Definition peer_on (p : PeerId) (ev : PeerEvent) (h : Handler) : M unit :=
  upd_peer p (fun o =>
    set_listeners ev (listeners ev o ++ [{| l_fn := h; l_once := false |}]) o).

Definition peer_once (p : PeerId) (ev : PeerEvent) (h : Handler) : M unit :=
  upd_peer p (fun o =>
    set_listeners ev (listeners ev o ++ [{| l_fn := h; l_once := true |}]) o).

(** [peer.removeListener(ev, h)] *)
Definition peer_removeListener (p : PeerId) (ev : PeerEvent) (h : Handler)
  : M unit :=
  upd_peer p (fun o => set_listeners ev (removeListener h (listeners ev o)) o).

(** Modelled from the spec: [new Peer({ magic, protocolVersion, getTip,
    handshakeTimeout, socket })] of the missing [peer.js]: a new peer object
    around the socket, in state [connecting]: not ready, no listeners. *)
Definition new_Peer (s : option Socket) : M PeerId :=
  n ← gets next_peer;
  modify (fun g =>
    with_next_peer (S n)
      (with_heap (upd_heap (Dialed n) (fun _ => fresh_peer s) (heap g)) g));;
  mret (Dialed n).

(** Modelled from the spec: [peer._onceReady(f)] of the missing [peer.js],
    the "run this once peer becomes ready" registration, for a peer that is
    not ready: [f] becomes a one-time 'ready' listener. *)
Definition _onceReady (p : PeerId) (h : Handler) : M unit :=
  peer_once p EvReady h.

(** Modelled from the spec: [peer.disconnect()] of the missing [peer.js]: a
    call to the peer; the 'disconnect' event the peer emits is an event of
    the environment (see [Event]). *)
Definition peer_disconnect (p : PeerId) : M unit := log (PeerDisconnect p).

(** Modelled from the spec: [peer.send(command, payload)] of the missing
    [peer.js]: a call to the peer. *)
Definition peer_send (p : PeerId) (command payload : string) : M unit :=
  log (PeerSend p command payload).

Definition upd_attempt (aid : nat) (f : Attempt -> Attempt) : M unit :=
  modify (fun g => with_attempts (alter f aid (attempts g)) g).

(** Modelled from the spec: [utils.getRandom] of the missing [utils.js],
    "pick one uniformly": the next draw of the random source, taken modulo
    the length; [undefined] on an empty array. *)
Definition getRandom {A} (l : list A) : M (option A) :=
  k ← gets draws;
  r ← gets random;
  modify (with_draws (S k));;
  mret (l !! (r k `mod` length l)%nat).

(** ** Address parsing *)

Record Address := { hostname : string; port : JSVal }.

Fixpoint split_colon (s : string) : string * option string :=
  match s with
  | EmptyString => (EmptyString, None)
  | String c s' =>
      if (Ascii.nat_of_ascii c =? 58)%nat then (EmptyString, Some s')
      else let '(h, p) := split_colon s' in (String c h, p)
  end.

Definition digit (c : Ascii.ascii) : option Z :=
  let n := Z.of_nat (Ascii.nat_of_ascii c) in
  if (48 <=? n) && (n <=? 57) then Some (n - 48) else None.

Fixpoint parse_decimal (acc : Z) (s : string) : option Z :=
  match s with
  | EmptyString => Some acc
  | String c s' =>
      match digit c with
      | Some d => parse_decimal (10 * acc + d) s'
      | None => None
      end
  end.

(** Modelled from the spec: [utils.parseAddress] of the missing [utils.js],
    which "parses a "host:port"-style string into {hostname, port}": the
    text before the first colon, and the number after it ([null] when there
    is none). *)
Definition parseAddress (s : string) : Address :=
  let '(h, p) := split_colon s in
  {| hostname := h;
     port := match p with
             | Some (String c ds) =>
                 match parse_decimal 0 (String c ds) with
                 | Some n => JNum n
                 | None => JNull
                 end
             | _ => JNull
             end |}.

(** ** Discovery methods *)

(** The array [getPeerArray] that [_connectPeer] builds. *)
Definition getPeerArray (g : PeerGroup) : list Method :=
  (if negb (truthy (process_browser g)) then
     (if (0 <? length (dnsSeeds (_params g)))%nat then [DNSPeer] else []) ++
     (if (0 <? length (staticPeers (_params g)))%nat then [StaticPeer] else [])
   else []) ++
  (if truthy (_connectWeb g) && (0 <? exchange_peers g)%nat
   then [ExchangeNewPeer] else []) ++
  (if getNewPeer (_params g) then [ParamsNewPeer] else []).

(** [_connectTCP(host, port, cb)]: the callback [cb] is the one of attempt
    [aid]; the socket's two one-time listeners are the attempt's phase. *)
Definition _connectTCP (host : option string) (port : JSVal) (aid : nat)
  : M unit :=
  dp ← gets (fun g => defaultPort (_params g));
  log (NetConnect dp host (TcpSocket aid));;
  log (SocketSetTimeout (TcpSocket aid) (10 * 1000));;
  upd_attempt aid (set_phase (Connecting true true)).

(** [_connectStaticPeer(cb)] *)
Definition _connectStaticPeer (aid : nat) : M unit :=
  ps ← gets (fun g => staticPeers (_params g));
  address ← getRandom ps;
  match address with
  | None => throw (ErrExternal "TypeError")
  | Some a =>
      let peer := parseAddress a in
      _connectTCP (Some (hostname peer)) (port peer) aid
  end.

(** [_connectDNSPeer(cb)], up to the call of [dns.resolve] *)
Definition _connectDNSPeer (aid : nat) : M unit :=
  seeds ← gets (fun g => dnsSeeds (_params g));
  seed ← getRandom seeds;
  log (DnsResolve seed aid);;
  upd_attempt aid (set_phase Resolving).

(** [getPeer(cb)] for the chosen method *)
Definition call_method (m : Method) (aid : nat) : M unit :=
  match m with
  | DNSPeer => _connectDNSPeer aid
  | StaticPeer => _connectStaticPeer aid
  | ExchangeNewPeer =>
      log (ExchangeGetNewPeer aid);; upd_attempt aid (set_phase Awaiting)
  | ParamsNewPeer =>
      log (ParamsGetNewPeer aid);; upd_attempt aid (set_phase Awaiting)
  end.

Definition new_attempt (m : Method) (t : TimerState) : M nat :=
  aid ← gets (fun g => length (attempts g));
  modify (fun g =>
    with_attempts
      (attempts g ++
       [{| a_method := m; a_timer := t; a_timedOut := false;
           a_phase := Idle |}]) g);;
  mret aid.

(** ** [_onConnection] and [_connectPeer] *)

(** [_onConnection(err, socket)]; its call of [this._connectPeer()] is the
    argument [connectPeer]. *)
Definition _onConnection (connectPeer : M unit) (err : option Error)
    (s : option Socket) : M unit :=
  match err with
  | Some e =>
      log (EmitConnectError e None);;
      c ← gets connecting;
      when c connectPeer
  | None =>
      peer ← new_Peer s;
      peer_once peer EvError OnError;;
      peer_once peer EvDisconnect OnError;;
      peer_once peer EvReady OnReady
  end.

(** [_connectPeer()].  It calls [_onConnection], which calls it back: the
    recursion is on [fuel], and a call that runs out of it does not
    return. *)
Fixpoint _connectPeer (fuel : nat) : M unit :=
  match fuel with
  | O => diverge
  | S fuel' =>
      modify (fun g => with_issued (S (issued g)) g);;
      getPeerArray ← gets getPeerArray;
      if decide (length getPeerArray = 0%nat) then
        _onConnection (_connectPeer fuel') (Some ErrNoMethods) None
      else
        getPeer ← getRandom getPeerArray;
        match getPeer with
        | None => throw (ErrExternal "TypeError")
        | Some getPeer =>
            t ← gets connectTimeout;
            if negb (truthy t) then
              aid ← new_attempt getPeer NoTimer;
              call_method getPeer aid
            else
              aid ← new_attempt getPeer Armed;
              log (SetTimeout aid t);;
              call_method getPeer aid
        end
  end.

(** ** Filling, admission, removal *)

(** [_fillPeers()] *)
Definition _fillPeers (fuel : nat) : M unit :=
  n ← gets (fun g => _numPeers g - Z.of_nat (length (peers g)));
  times (Z.to_nat n) (_connectPeer fuel).

(** The 'peer' listeners [connect()] added, called on a copy of the list as
    [emit] does: [kept] are the listeners already called that stay, [todo]
    the ones still to call. *)
Fixpoint call_onPeer (fuel : nat) (kept todo : list OnPeer) : M unit :=
  match todo with
  | [] => mret tt
  | c :: rest =>
      let i := op_i c + 1 in
      if i <? op_nSeeds c then
        let c' := {| op_i := i; op_nSeeds := op_nSeeds c |} in
        modify (with_peerListeners (kept ++ c' :: rest));;
        call_onPeer fuel (kept ++ [c']) rest
      else
        modify (with_peerListeners (kept ++ rest));;
        _fillPeers fuel;;
        call_onPeer fuel kept rest
  end.

(** [this.emit('peer', peer)] *)
Definition emit_peer (fuel : nat) (p : PeerId) : M unit :=
  log (EmitPeer p);;
  ls ← gets peerListeners;
  call_onPeer fuel [] ls.

(** [this.peers.indexOf(peer)] *)
Definition indexOf (p : PeerId) (l : list PeerId) : Z :=
  match list_find (fun q => q = p) l with
  | Some (i, _) => Z.of_nat i
  | None => -1
  end.

(** [this.peers.splice(index, 1)]: a negative [index] counts from the end of
    the array. *)
Definition splice1 (index : Z) (l : list PeerId) : list PeerId :=
  let len := Z.of_nat (length l) in
  let start := if index <? 0 then Z.max (len + index) 0 else Z.min index len in
  delete (Z.to_nat start) l.

(** [addPeer(peer)] *)
Definition addPeer (fuel : nat) (p : PeerId) : M unit :=
  o ← gets (fun g => heap g p);
  when (negb (ready o)) (_onceReady p OnceReadyAdd);;
  modify (fun g => with_peers (peers g ++ [p]) g);;
  hardLimit ← gets _hardLimit;
  len ← gets (fun g => Z.of_nat (length (peers g)));
  numPeers ← gets _numPeers;
  when (truthy hardLimit && (numPeers <? len))
    (ps ← gets peers;
     match ps with
     | [] => throw (ErrExternal "TypeError")
     | disconnectPeer :: rest =>
         modify (with_peers rest);;
         peer_disconnect disconnectPeer
     end);;
  peer_once p EvDisconnect OnDisconnect;;
  peer_on p EvError OnPeerError;;
  emit_peer fuel p.

(** The bodies of the closures registered on a peer, called with the
    argument of the event. *)
Definition call_handler (fuel : nat) (p : PeerId) (arg : option Error)
    (h : Handler) : M unit :=
  match h with
  | OnError =>
      let err := default ErrConnection arg in
      peer_removeListener p EvError OnError;;
      peer_removeListener p EvDisconnect OnError;;
      log (EmitConnectError err (Some p));;
      c ← gets connecting;
      when c (_connectPeer fuel)
  | OnReady =>
      peer_removeListener p EvError OnError;;
      peer_removeListener p EvDisconnect OnError;;
      addPeer fuel p
  | OnceReadyAdd => addPeer fuel p
  | OnDisconnect =>
      modify (fun g => with_peers (splice1 (indexOf p (peers g)) (peers g)) g);;
      c ← gets connecting;
      when c (_fillPeers fuel);;
      log (EmitDisconnect p)
  | OnPeerError =>
      log (EmitPeerError arg);;
      peer_disconnect p
  end.

Fixpoint remove_listener (l : Listener) (ls : list Listener) : list Listener :=
  match ls with
  | [] => []
  | l' :: ls' => if decide (l' = l) then ls' else l' :: remove_listener l ls'
  end.

(** The peer emits [ev]: its listeners for [ev] are called in order on a
    copy of the list, a one-time listener being removed before it runs.  An
    ['error'] event that has no listener is thrown by the emitter: the error
    itself, or the emitter's own error when none was given. *)
Definition peer_emit (fuel : nat) (p : PeerId) (ev : PeerEvent)
    (arg : option Error) : M unit :=
  ls ← gets (fun g => listeners ev (heap g p));
  match ev, ls with
  | EvError, [] => throw (default (ErrExternal "Unhandled error") arg)
  | _, _ =>
      for_of ls (fun l =>
        when (l_once l)
          (upd_peer p (fun o =>
             set_listeners ev (remove_listener l (listeners ev o)) o));;
        call_handler fuel p arg (l_fn l))
  end.

(** ** The discovery callbacks *)

(** The callback [_connectPeer] hands to the method: [_onConnection] itself
    when there is no timer, otherwise the closure that tests [timedOut]. *)
Definition attempt_callback (fuel : nat) (aid : nat) (err : option Error)
    (s : option Socket) : M unit :=
  a ← gets (fun g => attempts g !! aid);
  match a with
  | None => mret tt
  | Some a =>
      match a_timer a with
      | NoTimer => _onConnection (_connectPeer fuel) err s
      | _ =>
          if a_timedOut a then mret tt
          else
            log (ClearTimeout aid);;
            upd_attempt aid (fun a =>
              match a_timer a with Armed => set_timer Cleared a | _ => a end);;
            _onConnection (_connectPeer fuel) err s
      end
  end.

(** The closure given to [setTimeout]. *)
Definition on_timeout (fuel : nat) (aid : nat) : M unit :=
  upd_attempt aid (fun a => set_timedOut true (set_timer Fired a));;
  log (EmitConnectError ErrTimedOut None);;
  c ← gets connecting;
  when c (_connectPeer fuel).

(** The callback of [dns.resolve] in [_connectDNSPeer]. *)
Definition on_resolve (fuel : nat) (aid : nat) (r : Error + list string)
  : M unit :=
  match r with
  | inl err =>
      upd_attempt aid (set_phase Finished);;
      attempt_callback fuel aid (Some err) None
  | inr addresses =>
      address ← getRandom addresses;
      dp ← gets (fun g => defaultPort (_params g));
      _connectTCP address dp aid
  end.

(** ** The public methods *)

(** [_connectWebSeeds()] *)
Definition _connectWebSeeds : M unit :=
  ws ← gets (fun g => webSeeds (_params g));
  dwp ← gets (fun g => defaultWebPort (_params g));
  for_of ws (fun seed =>
    match seed with
    | SeedString s =>
        let url := parseAddress s in
        let port := js_or (js_or (port url) dwp) (JNum DEFAULT_PXP_PORT) in
        log (ExchangeConnect "websocket" (hostname url) port)
    | SeedSpec transport address opts =>
        log (ExchangeConnect transport address opts)
    end).

(** [_assertPeers()] *)
Definition _assertPeers : M unit :=
  ps ← gets peers;
  if decide (length ps = 0%nat) then throw ErrNotConnected else mret tt.

(** [send(command, payload)] *)
Definition send (command payload : string) : M unit :=
  _assertPeers;;
  ps ← gets peers;
  for_of ps (fun peer => peer_send peer command payload).

(** [connect()] *)
Definition connect (fuel : nat) : M unit :=
  modify (with_connecting true);;
  ws ← gets (fun g => webSeeds (_params g));
  if (0 <? length ws)%nat then
    numPeers ← gets _numPeers;
    let nSeeds := Z.min (Z.min (Z.of_nat (length ws)) (numPeers `div` 2)) 1 in
    modify (fun g =>
      with_peerListeners
        (peerListeners g ++ [{| op_i := 0; op_nSeeds := nSeeds |}]) g);;
    _connectWebSeeds
  else _fillPeers fuel.

(** [disconnect()] *)
Definition disconnect : M unit :=
  modify (with_connecting false);;
  ps ← gets peers;
  for_of ps (fun peer => peer_disconnect peer).

(** [randomPeer()] *)
Definition randomPeer : M (option PeerId) :=
  _assertPeers;;
  ps ← gets peers;
  getRandom ps.

(** ** The event loop *)

(** What the caller and the collaborators do to the pool: calls of its
    public methods, and the callbacks and events of timers, [dns], sockets,
    discovery methods, the exchange and the peers. *)
Inductive Event :=
  | Call_connect
  | Call_disconnect
  | Call_addPeer (p : PeerId)
  | Call_send (command payload : string)
  | Call_randomPeer
  | TimerFires (aid : nat)
  | DnsResolved (aid : nat) (r : Error + list string)
  | SocketError (aid : nat) (e : Error)
  | SocketConnect (aid : nat)
  | MethodCallback (aid : nat) (r : Error + Socket)
  | SeedConnected (r : Error + Socket)
  | ExchangePeer (incoming : bool) (s : Socket)
  | ExchangePeers (n : nat)
  | PeerIsReady (p : PeerId)
  | PeerFails (p : PeerId) (e : option Error)
  | PeerDisconnects (p : PeerId) (e : option Error).

Definition phase_of (aid : nat) (g : PeerGroup) : option Phase :=
  a_phase <$> attempts g !! aid.

Definition timer_of (aid : nat) (g : PeerGroup) : option TimerState :=
  a_timer <$> attempts g !! aid.

(** One turn of the loop.  An event that its source cannot produce in the
    present state (a timer that is not armed, a socket listener that is gone,
    a resolution nobody asked for) changes nothing. *)
Definition step (fuel : nat) (ev : Event) : M unit :=
  match ev with
  | Call_connect => connect fuel
  | Call_disconnect => disconnect
  | Call_addPeer p => addPeer fuel p
  | Call_send command payload => send command payload
  | Call_randomPeer => randomPeer ;; mret tt
  | TimerFires aid =>
      t ← gets (timer_of aid);
      match t with
      | Some Armed => on_timeout fuel aid
      | _ => mret tt
      end
  | DnsResolved aid r =>
      ph ← gets (phase_of aid);
      match ph with
      | Some Resolving => on_resolve fuel aid r
      | _ => mret tt
      end
  | SocketError aid e =>
      ph ← gets (phase_of aid);
      match ph with
      | Some (Connecting true c) =>
          upd_attempt aid (set_phase (Connecting false c));;
          attempt_callback fuel aid (Some e) None
      | _ => mret tt
      end
  | SocketConnect aid =>
      ph ← gets (phase_of aid);
      match ph with
      | Some (Connecting _ true) =>
          upd_attempt aid (set_phase (Connecting false false));;
          attempt_callback fuel aid None (Some (TcpSocket aid))
      | _ => mret tt
      end
  | MethodCallback aid r =>
      ph ← gets (phase_of aid);
      match ph with
      | Some Awaiting =>
          match r with
          | inl e => attempt_callback fuel aid (Some e) None
          | inr s => attempt_callback fuel aid None (Some s)
          end
      | _ => mret tt
      end
  | SeedConnected r =>
      match r with
      | inl e => _onConnection (_connectPeer fuel) (Some e) None
      | inr s => _onConnection (_connectPeer fuel) None (Some s)
      end
  | ExchangePeer incoming s =>
      if incoming then _onConnection (_connectPeer fuel) None (Some s)
      else mret tt
  | ExchangePeers n => modify (with_exchange_peers n)
  | PeerIsReady p =>
      upd_peer p (set_ready true);;
      peer_emit fuel p EvReady None
  | PeerFails p e => peer_emit fuel p EvError e
  | PeerDisconnects p e => peer_emit fuel p EvDisconnect e
  end.

(** The loop over a list of events, stopping at the first that throws or
    does not return. *)
Fixpoint run (fuel : nat) (evs : list Event) : M unit :=
  match evs with
  | [] => mret tt
  | ev :: evs' => step fuel ev ;; run fuel evs'
  end.

(** A whole session: [new PeerGroup(params, opts)], then the events. *)
Definition session (fuel : nat) (browser : JSVal) (rnd : nat -> nat)
    (params : option Params) (opts : option Opts) (evs : list Event)
  : Error + outcome unit :=
  match constructor browser rnd params opts with
  | inl e => inl e
  | inr g => inr (run fuel evs g)
  end.


(** * Listening for incoming connections: [accept] and [unaccept]

    [accept] and [unaccept] read and write three fields of the pool that no
    other method touches ([websocketPort], [acceptingWebsocket],
    [acceptingWebRTC]); they are modelled on a record of those fields.  The
    exchange calls back twice, once per transport; each callback is a
    function of the error the exchange passes ([None] for [null]).  An error
    is reported by [this.emit('error', err)], which calls the 'error'
    listeners of the pool when there is one and throws [err] when there is
    none: [errorListener] says whether the caller has attached one. *)

(** What [accept] and [unaccept] do to the outside. *)
Inductive ListenEffect :=
  | ExchangeAccept (transport : string) (opts : option JSVal)
  | ExchangeUnaccept (transport : string)
  | CallCb (err : option Error)          (* [cb(err)] *)
  | EmitError (err : Error).             (* an 'error' listener called *)

Record Listening := {
  websocketPort : JSVal;
  acceptingWebsocket : bool;
  acceptingWebRTC : bool;
  errorListener : bool;
  l_trace : list ListenEffect
}.

(** How a call ends: it returns, or it throws; the fields are as the call
    left them in both cases. *)
Inductive Listened :=
  | Done (l : Listening)
  | Thrown (e : Error) (l : Listening).


(** The fields as the constructor leaves them: [websocketPort = null], the
    two flags not set, no 'error' listener attached. *)
Definition not_listening : Listening :=
  {| websocketPort := JNull; acceptingWebsocket := false;
     acceptingWebRTC := false; errorListener := false; l_trace := [] |}.

Definition l_log (e : ListenEffect) (l : Listening) : Listening :=
  {| websocketPort := websocketPort l;
     acceptingWebsocket := acceptingWebsocket l;
     acceptingWebRTC := acceptingWebRTC l;
     errorListener := errorListener l; l_trace := l_trace l ++ [e] |}.

(** The first argument of [accept]: nothing, a function (the callback), or
    an options object with its [port]. *)
Inductive AcceptArg :=
  | ArgUndefined
  | ArgFunction
  | ArgOptions (port : JSVal).

(** The double quote. *)
Definition dquote : string := String (Ascii.ascii_of_nat 34) EmptyString.

(** ['Transport "webrtc" not found'] *)
Definition webrtc_not_found : string :=
  String.append "Transport "
    (String.append dquote
       (String.append "webrtc" (String.append dquote " not found"))).

(** [err2 && err2.message === 'Transport "webrtc" not found'] *)
Definition is_webrtc_not_found (err : option Error) : bool :=
  match err with
  | Some (ErrExternal msg) => String.eqb msg webrtc_not_found
  | _ => false
  end.

(** [err1 || err2] *)
Definition first_error (err1 err2 : option Error) : option Error :=
  match err1 with
  | Some e => Some e
  | None => err2
  end.

(** [_error(err)], that is [this.emit('error', err)]: the listeners are
    called, or [err] is thrown when there is none. *)
Definition _error (err : Error) (l : Listening) : Listened :=
  if errorListener l then Done (l_log (EmitError err) l) else Thrown err l.

(** [if (err) this._error(err)] *)
Definition report (err : option Error) (l : Listening) : Listened :=
  match err with
  | Some e => _error e l
  | None => Done l
  end.

(** The tail both methods share: [if (cb) return cb(err1 || err2)], else the
    two errors are handed to [_error], the second only if the first call
    returned. *)
Definition finish (cb : bool) (err1 err2 : option Error) (l : Listening)
  : Listened :=
  if cb then Done (l_log (CallCb (first_error err1 err2)) l)
  else
    match report err1 l with
    | Done l1 => report err2 l1
    | Thrown e l1 => Thrown e l1
    end.

(** [accept(opts, cb)] up to its call of the exchange: the callback it will
    use and the new state, or the [TypeError] of reading [opts.port] when
    [opts] is undefined. *)
Definition accept_call (opts : AcceptArg) (cb : bool) (l : Listening)
  : Error + (bool * Listening) :=
  match opts with
  | ArgUndefined => inl (ErrExternal "TypeError")
  | ArgFunction =>
      let port := JNum DEFAULT_PXP_PORT in
      inr (true,
           l_log (ExchangeAccept "websocket" (Some port))
             {| websocketPort := port;
                acceptingWebsocket := acceptingWebsocket l;
                acceptingWebRTC := acceptingWebRTC l;
                errorListener := errorListener l; l_trace := l_trace l |})
  | ArgOptions p =>
      let port := js_or p (JNum DEFAULT_PXP_PORT) in
      inr (cb,
           l_log (ExchangeAccept "websocket" (Some port))
             {| websocketPort := port;
                acceptingWebsocket := acceptingWebsocket l;
                acceptingWebRTC := acceptingWebRTC l;
                errorListener := errorListener l; l_trace := l_trace l |})
  end.

(** The callback of [this._exchange.accept('websocket', ...)]. *)
Definition accept_on_websocket (err1 : option Error) (l : Listening)
  : Listening :=
  l_log (ExchangeAccept "webrtc" None)
    {| websocketPort := websocketPort l;
       acceptingWebsocket :=
         match err1 with None => true | Some _ => acceptingWebsocket l end;
       acceptingWebRTC := acceptingWebRTC l;
       errorListener := errorListener l; l_trace := l_trace l |}.

(** The callback of [this._exchange.accept('webrtc', ...)]. *)
Definition accept_on_webrtc (cb : bool) (err1 err2 : option Error)
    (l : Listening) : Listened :=
  let err2 := if is_webrtc_not_found err2 then None else err2 in
  finish cb err1 err2
    {| websocketPort := websocketPort l;
       acceptingWebsocket := acceptingWebsocket l;
       acceptingWebRTC :=
         match err2 with None => true | Some _ => acceptingWebRTC l end;
       errorListener := errorListener l; l_trace := l_trace l |}.

(** [accept(opts, cb)] with both callbacks of the exchange delivered. *)
Definition accept (opts : AcceptArg) (cb : bool) (err1 err2 : option Error)
    (l : Listening) : Listened :=
  match accept_call opts cb l with
  | inl e => Thrown e l
  | inr (cb, l1) => accept_on_webrtc cb err1 err2 (accept_on_websocket err1 l1)
  end.

(** [unaccept(cb)] with both callbacks of the exchange delivered. *)
Definition unaccept (cb : bool) (err1 err2 : option Error) (l : Listening)
  : Listened :=
  finish cb err1 err2
    (l_log (ExchangeUnaccept "webrtc") (l_log (ExchangeUnaccept "websocket") l)).
(** * Specification vocabulary and example data *)

(** ** Construction *)

(** The parameters the specification calls valid: [id], [magic] and
    [defaultPort] all present (not [null], not [undefined]). *)
Definition all_present (p : Params) : Prop :=
  nullish (id p) = false /\ nullish (magic p) = false /\
  nullish (defaultPort p) = false.

(** The parameters [assertParams] lets through: a truthy [id], a [magic]
    that is not [null] or [undefined], a truthy [defaultPort]. *)
Definition accepted (p : Params) : Prop :=
  truthy (id p) = true /\ nullish (magic p) = false /\
  truthy (defaultPort p) = true.

(** Parameters with an empty [id]: present, but not truthy. *)
Definition params_empty_id : Params :=
  {| id := JStr EmptyString; magic := JNum 3652501241; defaultPort := JNum 8333;
     protocolVersion := JNum 70012; defaultWebPort := JUndefined;
     dnsSeeds := []; staticPeers := []; webSeeds := []; getNewPeer := false |}.

(** ** The parts of [_connectPeer] *)

(** The rest of [_connectPeer] once the array of methods is known not to be
    empty: the choice of a method, the timer, the call. *)
Definition start_attempt (getPeerArray : list Method) : M unit :=
  getPeer ← getRandom getPeerArray;
  match getPeer with
  | None => throw (ErrExternal "TypeError")
  | Some getPeer =>
      t ← gets connectTimeout;
      if negb (truthy t) then
        aid ← new_attempt getPeer NoTimer;
        call_method getPeer aid
      else
        aid ← new_attempt getPeer Armed;
        log (SetTimeout aid t);;
        call_method getPeer aid
  end.

(** ** Example pools *)

(** Parameters that name no discovery method at all. *)
Definition params_no_methods : Params :=
  {| id := JStr "bitcoin"; magic := JNum 3652501241; defaultPort := JNum 8333;
     protocolVersion := JNum 70012; defaultWebPort := JUndefined;
     dnsSeeds := []; staticPeers := []; webSeeds := []; getNewPeer := false |}.

(** [new PeerGroup(params_no_methods)] under Node, then [connecting = true]
    as [connect()] sets it. *)
Definition pool_no_methods : PeerGroup :=
  with_connecting true (init JUndefined (fun _ => 0%nat) params_no_methods None).

(** Parameters with one static peer, on a port that is not the default. *)
Definition params_static : Params :=
  {| id := JStr "bitcoin"; magic := JNum 3652501241; defaultPort := JNum 8333;
     protocolVersion := JNum 70012; defaultWebPort := JUndefined;
     dnsSeeds := []; staticPeers := ["example.com:18333"]; webSeeds := [];
     getNewPeer := false |}.

Definition pool_static : PeerGroup :=
  init JUndefined (fun _ => 0%nat) params_static None.


(** The state a list of events leaves, when they all return. *)
Definition state_after (fuel : nat) (evs : list Event) (g : PeerGroup)
  : PeerGroup :=
  match run fuel evs g with
  | Ret _ g' => g'
  | _ => g
  end.


(** [{ numPeers: 2, hardLimit: true }] *)
Definition opts_hardLimit_2 : Opts :=
  {| o_numPeers := Some 2; o_hardLimit := JBool true;
     o_connectWeb := JUndefined; o_connectTimeout := JUndefined;
     o_handshakeTimeout := JUndefined |}.

(** Three peers of the caller, handshaken, added one after the other. *)
Definition session_ABC : list Event :=
  [PeerIsReady (Manual 0); PeerIsReady (Manual 1); PeerIsReady (Manual 2);
   Call_addPeer (Manual 0); Call_addPeer (Manual 1); Call_addPeer (Manual 2)].

(** [{ connectTimeout: 0, numPeers: 1 }] *)
Definition opts_no_timeout : Opts :=
  {| o_numPeers := Some 1; o_hardLimit := JUndefined;
     o_connectWeb := JUndefined; o_connectTimeout := JNum 0;
     o_handshakeTimeout := JUndefined |}.

(** Parameters with a web seed and a DNS seed. *)
Definition params_web : Params :=
  {| id := JStr "bitcoin"; magic := JNum 3652501241; defaultPort := JNum 8333;
     protocolVersion := JNum 70012; defaultWebPort := JUndefined;
     dnsSeeds := ["seed.example.com"]; staticPeers := [];
     webSeeds := [SeedString "seed.example.com:8192"]; getNewPeer := false |}.

(** [connect()], then [disconnect()] while the web seed is still being
    dialled; then the dial succeeds and the peer becomes ready. *)
Definition session_late_seed : list Event :=
  [Call_connect; Call_disconnect; SeedConnected (inr (ExchangeSocket 0));
   PeerIsReady (Dialed 0)].

(** ** The parts of [addPeer] *)

(** Whether [addPeer] evicts: the hard limit is set and the array, with the
    new peer appended, is longer than [_numPeers]. *)
Definition overflows (p : PeerId) (g : PeerGroup) : bool :=
  truthy (_hardLimit g) && (_numPeers g <? Z.of_nat (length (peers g ++ [p]))).

(** The state [addPeer(p)] has reached when it emits 'peer': the one-time
    'ready' callback registered if [p] is not ready, [p] appended, the front
    of the array shifted out and disconnected if the array overflows, the
    'disconnect' and 'error' listeners registered. *)
Definition admitted (p : PeerId) (g : PeerGroup) : PeerGroup :=
  let h1 :=
    if ready (heap g p) then heap g
    else upd_heap p (fun o =>
           set_listeners EvReady
             (listeners EvReady o ++ [{| l_fn := OnceReadyAdd; l_once := true |}])
             o) (heap g) in
  let h2 :=
    upd_heap p (fun o =>
      set_listeners EvDisconnect
        (listeners EvDisconnect o ++ [{| l_fn := OnDisconnect; l_once := true |}])
        o) h1 in
  let h3 :=
    upd_heap p (fun o =>
      set_listeners EvError
        (listeners EvError o ++ [{| l_fn := OnPeerError; l_once := false |}])
        o) h2 in
  if overflows p g then
    match peers g ++ [p] with
    | [] => g
    | oldest :: rest =>
        with_heap h3
          (with_trace (trace g ++ [PeerDisconnect oldest])
             (with_peers rest g))
    end
  else with_heap h3 (with_peers (peers g ++ [p]) g).

(** ** The hard limit *)

(** The array is no longer than [_numPeers]. *)
Definition within_limit (g : PeerGroup) : Prop :=
  Z.of_nat (length (peers g)) <= _numPeers g.

(** From [g] to [g']: the limit is the same, and kept if it was. *)
Definition keeps_limit : relation PeerGroup := fun g g' =>
  _hardLimit g' = _hardLimit g /\ _numPeers g' = _numPeers g /\
  (truthy (_hardLimit g) = true -> within_limit g -> within_limit g').

(** The pool of [opts_hardLimit_2] once A and B are admitted. *)
Definition pool_AB : PeerGroup :=
  state_after 1
    [PeerIsReady (Manual 0); PeerIsReady (Manual 1); PeerIsReady (Manual 2);
     Call_addPeer (Manual 0); Call_addPeer (Manual 1)]
    (init JUndefined (fun _ => 0%nat) params_static (Some opts_hardLimit_2)).

(** ** The fate of a connection attempt *)




(** What is final in an attempt: [timedOut], once true, and the timer, once
    fired or cleared. *)
Definition settles (x y : Attempt) : Prop :=
  (a_timedOut x = true -> a_timedOut y = true) /\
  (a_timedOut x = false -> a_timer x = Cleared -> a_timedOut y = false) /\
  (a_timer x = Cleared -> a_timer y = Cleared) /\
  (a_timer x = Fired -> a_timer y = Fired).

Definition attempts_settle : relation PeerGroup := fun g g' =>
  forall aid x, attempts g !! aid = Some x ->
    exists y, attempts g' !! aid = Some y /\ settles x y.


(** Those of them that, in state [g], call the callback [_connectPeer] gave
    to the method: a failed resolution, the socket's 'error' or 'connect'
    while the listener is attached, the callback of an external method. *)
Definition calls_back (aid : nat) (ev : Event) (g : PeerGroup) : bool :=
  match ev, phase_of aid g with
  | DnsResolved a (inl _), Some Resolving => bool_decide (a = aid)
  | SocketError a _, Some (Connecting true _) => bool_decide (a = aid)
  | SocketConnect a, Some (Connecting _ true) => bool_decide (a = aid)
  | MethodCallback a _, Some Awaiting => bool_decide (a = aid)
  | _, _ => false
  end.

(** A call of [_connectPeer] chained from a callback returns: either the
    pool is not connecting and no call is chained, or there is a discovery
    method to choose. *)
Definition can_chain (g : PeerGroup) : Prop :=
  connecting g = false \/ getPeerArray g <> [].

(** The pool of [params_static] after [connect()]: eight attempts under way,
    each with its timer armed. *)
Definition pool_connected : PeerGroup :=
  state_after 1 [Call_connect] pool_static.

(** ** Relations between the state before and the state after *)

(** [preserves R m]: every run of [m] that returns relates the state before
    to the state after. *)
Definition preserves {A} (R : relation PeerGroup) (m : M A) : Prop :=
  forall g a g', m g = Ret a g' -> R g g'.

(** [same f]: the part [f] of the state does not change. *)
Definition same {A} (f : PeerGroup -> A) : relation PeerGroup :=
  fun g g' => f g = f g'.

(** The trace only grows. *)
Definition trace_grows : relation PeerGroup :=
  fun g g' => exists tl, trace g' = trace g ++ tl.

(** The relations that every write of a discovery method respects: a method
    calls its collaborators (a trace entry that is not an emitted event),
    draws random numbers, and moves the phase of its attempt;
    [_connectPeer] appends the attempt. *)
Class MethodFrame (R : relation PeerGroup) := {
  frame_preorder :: PreOrder R;
  frame_call : forall e g,
    is_emit e = false -> R g (with_trace (trace g ++ [e]) g);
  frame_draws : forall n g, R g (with_draws n g);
  frame_new : forall x g, R g (with_attempts (attempts g ++ [x]) g);
  frame_phase : forall aid p g,
    R g (with_attempts (alter (set_phase p) aid (attempts g)) g)
}.

(** The relations that every write of [_connectPeer] respects: it also
    counts its calls and emits 'connectError'. *)
Class ConnectFrame (R : relation PeerGroup) := {
  frame_method :: MethodFrame R;
  frame_issued : forall n g, R g (with_issued n g);
  frame_emit : forall e g, R g (with_trace (trace g ++ [e]) g)
}.

(** The fields of the pool object, the peer objects and the surroundings
    that [getPeerArray] reads. *)
Definition same_pool : relation PeerGroup := fun g g' =>
  _params g = _params g' /\ _numPeers g = _numPeers g' /\
  peers g = peers g' /\ _hardLimit g = _hardLimit g' /\
  _connectWeb g = _connectWeb g' /\ connectTimeout g = connectTimeout g' /\
  handshakeTimeout g = handshakeTimeout g' /\ connecting g = connecting g' /\
  peerListeners g = peerListeners g' /\
  process_browser g = process_browser g' /\
  exchange_peers g = exchange_peers g' /\ heap g = heap g' /\
  next_peer g = next_peer g' /\ random g = random g'.

(** The relations that the emission of 'peer' respects: [onPeer] may remove
    itself from the listeners and fill. *)
Class EmitFrame (R : relation PeerGroup) := {
  frame_connect :: ConnectFrame R;
  frame_peerListeners : forall v g, R g (with_peerListeners v g)
}.

(** The relations that every write of the pool respects; the admission of a
    peer ([admitted]) and the firing of an armed timer are stated as a
    whole. *)
Class PoolFrame (R : relation PeerGroup) := {
  frame_emit_peer :: EmitFrame R;
  frame_heap : forall h g, R g (with_heap h g);
  frame_next_peer : forall n g, R g (with_next_peer n g);
  frame_connecting : forall b g, R g (with_connecting b g);
  frame_exchange_peers : forall n g, R g (with_exchange_peers n g);
  frame_splice : forall i g, R g (with_peers (splice1 i (peers g)) g);
  frame_clear : forall aid g,
    R g (with_attempts
           (alter (fun a =>
                     match a_timer a with Armed => set_timer Cleared a | _ => a end)
              aid (attempts g)) g);
  frame_admitted : forall p g, R g (admitted p g);
  frame_fire : forall aid g,
    timer_of aid g = Some Armed ->
    R g (with_attempts
           (alter (fun a => set_timedOut true (set_timer Fired a)) aid
              (attempts g)) g)
}.


(** ** Further vocabulary *)

(** What [_connectWebSeeds] passes to [this._exchange.connect] for one
    seed. *)
Definition seed_dial (dwp : JSVal) (seed : WebSeed) : Effect :=
  match seed with
  | SeedString s =>
      let url := parseAddress s in
      ExchangeConnect "websocket" (hostname url)
        (js_or (js_or (port url) dwp) (JNum DEFAULT_PXP_PORT))
  | SeedSpec transport address opts => ExchangeConnect transport address opts
  end.

(** The number of attempts [_fillPeers] issues: what [_numPeers] exceeds the
    length of the array by, if anything. *)
Definition deficit (g : PeerGroup) : nat :=
  Z.to_nat (_numPeers g - Z.of_nat (length (peers g))).

(** From [g] to [g']: the attempts of [g] are still there, with the same
    method, timer and [timedOut]. *)
Definition attempts_kept : relation PeerGroup := fun g g' =>
  forall aid x, attempts g !! aid = Some x ->
    exists y, attempts g' !! aid = Some y /\
              a_method y = a_method x /\ a_timer y = a_timer x /\
              a_timedOut y = a_timedOut x.

(** The listeners of failures and disconnects: the closures that end in
    [addPeer] are not among them. *)
Definition no_admission (ls : list Listener) : Prop :=
  Forall (fun l => l_fn l <> OnReady /\ l_fn l <> OnceReadyAdd) ls.

(** The events by which something fails, times out or goes away. *)
Definition is_failure (ev : Event) : bool :=
  match ev with
  | TimerFires _ | SocketError _ _ | DnsResolved _ (inl _)
  | MethodCallback _ (inl _) | SeedConnected (inl _)
  | PeerFails _ _ | PeerDisconnects _ _ => true
  | _ => false
  end.

(** The peer an event is about, if it is an event of a peer. *)
Definition listeners_of (ev : Event) (g : PeerGroup) : list Listener :=
  match ev with
  | PeerFails p _ => on_error (heap g p)
  | PeerDisconnects p _ => on_disconnect (heap g p)
  | _ => []
  end.

(** An 'error' event of a peer that has no 'error' listener: the emitter
    throws it. *)
Definition unheard (ev : Event) (g : PeerGroup) : bool :=
  match ev with
  | PeerFails p _ =>
      match on_error (heap g p) with
      | [] => true
      | _ => false
      end
  | _ => false
  end.

(** A pool with two web seeds given as strings, one without a port and one
    with, and a [defaultWebPort] that differs from both 8192 and that
    port. *)
Definition pool_web_seeds : PeerGroup :=
  init JUndefined (fun _ => 0%nat)
    {| id := JStr "bitcoin"; magic := JNum 3652501241;
       defaultPort := JNum 8333; protocolVersion := JNum 70012;
       defaultWebPort := JNum 8194; dnsSeeds := []; staticPeers := [];
       webSeeds := [SeedString "a.example.com";
                    SeedString "b.example.com:8193"];
       getNewPeer := false |} None.

(** A pool of [params_static] that is listening for the first peer of its
    web seeds: the state [connect()] leaves when web seeds are configured. *)
Definition pool_bootstrap : PeerGroup :=
  with_peerListeners [{| op_i := 0; op_nSeeds := 1 |}]
    (with_connecting true pool_static).

(** A pool whose only discovery method is DNS, after [connect()]: eight
    attempts, each waiting for [dns.resolve]. *)
Definition pool_resolving : PeerGroup :=
  state_after 1 [Call_connect]
    (init JUndefined (fun _ => 0%nat)
       {| id := JStr "bitcoin"; magic := JNum 3652501241;
          defaultPort := JNum 8333; protocolVersion := JNum 70012;
          defaultWebPort := JUndefined; dnsSeeds := ["seed.example.com"];
          staticPeers := []; webSeeds := []; getNewPeer := false |}
       None).

(** The error a discovery event carries, if it is a failure. *)
Definition failure_of (ev : Event) : option Error :=
  match ev with
  | SocketError _ e | DnsResolved _ (inl e) | MethodCallback _ (inl e) => Some e
  | _ => None
  end.

(** [quiet m]: run on a pool that is not connecting, [m] returns, the pool
    is still not connecting and no call of [_connectPeer] was made. *)
Definition quiet {A} (m : M A) : Prop :=
  forall g, connecting g = false ->
    exists a g', m g = Ret a g' /\ connecting g' = false /\
                 issued g' = issued g.

(** The peer object [_onConnection] leaves: not admitted yet, with the
    one-time listeners that wait for its handshake to end. *)
Definition waiting_peer (r : bool) (s : option Socket) : PeerObj :=
  {| ready := r; socket := s;
     on_error := [{| l_fn := OnError; l_once := true |}];
     on_disconnect := [{| l_fn := OnError; l_once := true |}];
     on_ready := [{| l_fn := OnReady; l_once := true |}] |}.

(** The peer object [addPeer] leaves for a peer admitted once. *)
Definition admitted_peer (s : option Socket) : PeerObj :=
  {| ready := true; socket := s;
     on_error := [{| l_fn := OnPeerError; l_once := false |}];
     on_disconnect := [{| l_fn := OnDisconnect; l_once := true |}];
     on_ready := [] |}.

(** The pool of [params_static] holding one waiting peer, made from the
    socket of an incoming exchange peer. *)
Definition pool_waiting : PeerGroup :=
  state_after 0 [ExchangePeer true (ExchangeSocket 0)] pool_static.

(** The same pool once that peer is admitted. *)
Definition pool_admitted : PeerGroup :=
  state_after 0 [ExchangePeer true (ExchangeSocket 0); PeerIsReady (Dialed 0)]
    pool_static.

(** A pool of target 1 without the hard limit, holding two peers already. *)
Definition pool_over_target : PeerGroup :=
  state_after 0
    [PeerIsReady (Manual 0); PeerIsReady (Manual 1);
     Call_addPeer (Manual 0); Call_addPeer (Manual 1)]
    (init JUndefined (fun _ => 0%nat) params_static
       (Some {| o_numPeers := Some 1; o_hardLimit := JUndefined;
                o_connectWeb := JUndefined; o_connectTimeout := JUndefined;
                o_handshakeTimeout := JUndefined |})).
(** * Reasoning about the monad *)

Lemma bind_unfold {A B} (m : M A) (f : A -> M B) g :
  (m ≫= f) g =
  match m g with
  | Ret a g' => f a g'
  | Throw e g' => Throw e g'
  | OutOfFuel => OutOfFuel
  end.
Proof. reflexivity. Qed.

Lemma bind_Ret {A B} (m : M A) (f : A -> M B) g a g' :
  m g = Ret a g' -> (m ≫= f) g = f a g'.
Proof. intros H. rewrite bind_unfold, H. reflexivity. Qed.

Lemma bind_inv {A B} (m : M A) (f : A -> M B) g b g' :
  (m ≫= f) g = Ret b g' -> exists a g1, m g = Ret a g1 /\ f a g1 = Ret b g'.
Proof.
  rewrite bind_unfold. destruct (m g) as [a g1| |]; try discriminate.
  intros H. exists a, g1. auto.
Qed.

Section Preserves.
Context (R : relation PeerGroup) `{!PreOrder R}.

Lemma preserves_ret {A} (a : A) : preserves R (mret a).
Proof. intros g b g' [= _ <-]. reflexivity. Qed.

Lemma preserves_gets {A} (f : PeerGroup -> A) : preserves R (gets f).
Proof. intros g b g' [= _ <-]. reflexivity. Qed.

Lemma preserves_throw {A} e : preserves R (throw (A:=A) e).
Proof. intros g b g' [=]. Qed.

Lemma preserves_diverge {A} : preserves R (diverge (A:=A)).
Proof. intros g b g' [=]. Qed.

Lemma preserves_modify f : (forall g, R g (f g)) -> preserves R (modify f).
Proof. intros H g b g' [= _ <-]. apply H. Qed.

Lemma preserves_bind {A B} (m : M A) (f : A -> M B) :
  preserves R m -> (forall a, preserves R (f a)) -> preserves R (m ≫= f).
Proof.
  intros Hm Hf g b g' H. apply bind_inv in H as (a & g1 & H1 & H2).
  transitivity g1; [eapply Hm | eapply Hf]; eauto.
Qed.

Lemma preserves_when b m : preserves R m -> preserves R (when b m).
Proof. intros H. destruct b; [exact H | apply preserves_ret]. Qed.

Lemma preserves_for_of {A} (l : list A) body :
  (forall x, preserves R (body x)) -> preserves R (for_of l body).
Proof.
  intros H. induction l as [|x l IH]; simpl.
  - apply preserves_ret.
  - apply preserves_bind; auto.
Qed.

Lemma preserves_times n body : preserves R body -> preserves R (times n body).
Proof.
  intros H. induction n as [|n IH]; simpl.
  - apply preserves_ret.
  - apply preserves_bind; auto.
Qed.
End Preserves.

(** One structural step of a [preserves] goal. *)
Ltac preserves_step :=
  lazymatch goal with
  | |- preserves _ (mret _) => apply preserves_ret; try apply _
  | |- preserves _ (gets _) => apply preserves_gets; try apply _
  | |- preserves _ (throw _) => apply preserves_throw
  | |- preserves _ (modify _) => apply preserves_modify; intros ?
  | |- preserves _ diverge => apply preserves_diverge
  | |- preserves _ (when _ _) => apply preserves_when; [try apply _ .. | ]
  | |- preserves _ (for_of _ _) =>
      apply preserves_for_of; [try apply _ .. | intros ?]
  | |- preserves _ (times _ _) => apply preserves_times; [try apply _ .. | ]
  | |- preserves _ (_ ≫= _) =>
      apply preserves_bind; [try apply _ .. | intros ?]
  | |- preserves _ (if ?b then _ else _) => destruct b
  | |- preserves _ (match ?x with _ => _ end) => destruct x
  end.

Global Instance same_preorder {A} (f : PeerGroup -> A) : PreOrder (same f).
Proof. split; [intros g; reflexivity | intros g1 g2 g3; unfold same; congruence]. Qed.

Global Instance trace_grows_preorder : PreOrder trace_grows.
Proof.
  split.
  - intros g. exists []. by rewrite app_nil_r.
  - intros g1 g2 g3 [t1 H1] [t2 H2]. exists (t1 ++ t2).
    by rewrite H2, H1, app_assoc.
Qed.

(** * What the discovery methods and [_connectPeer] leave alone *)

Section MethodFrameLemmas.
Context (R : relation PeerGroup) `{!MethodFrame R}.

Lemma preserves_call e : is_emit e = false -> preserves R (log e).
Proof. intros He. apply preserves_modify. intros g. by apply frame_call. Qed.

Lemma preserves_getRandom {A} (l : list A) : preserves R (getRandom l).
Proof.
  unfold getRandom. repeat preserves_step. apply frame_draws.
Qed.

Lemma preserves_set_phase aid p : preserves R (upd_attempt aid (set_phase p)).
Proof. apply preserves_modify. intros g. apply frame_phase. Qed.

Lemma preserves_new_attempt m t : preserves R (new_attempt m t).
Proof.
  unfold new_attempt. repeat preserves_step. apply frame_new.
Qed.

Lemma preserves_connectTCP host port aid :
  preserves R (_connectTCP host port aid).
Proof.
  unfold _connectTCP.
  repeat preserves_step;
    auto using preserves_call, preserves_set_phase.
Qed.

Lemma preserves_call_method m aid : preserves R (call_method m aid).
Proof.
  unfold call_method, _connectDNSPeer, _connectStaticPeer.
  repeat preserves_step;
    auto using preserves_call, preserves_set_phase, preserves_getRandom,
      preserves_connectTCP.
Qed.
End MethodFrameLemmas.

Section ConnectFrameLemmas.
Context (R : relation PeerGroup) `{!ConnectFrame R}.

Lemma preserves_log e : preserves R (log e).
Proof. apply preserves_modify. intros g. apply frame_emit. Qed.

Lemma preserves_onConnection_error cp e s :
  preserves R cp -> preserves R (_onConnection cp (Some e) s).
Proof.
  intros H. unfold _onConnection.
  repeat preserves_step; auto using preserves_log.
Qed.

Lemma preserves_connectPeer fuel : preserves R (_connectPeer fuel).
Proof.
  induction fuel as [|fuel IH]; simpl.
  - apply preserves_diverge.
  - repeat preserves_step;
      first [ assumption
            | apply frame_issued
            | apply preserves_log
            | by apply preserves_onConnection_error
            | apply preserves_getRandom, _
            | apply preserves_new_attempt, _
            | apply preserves_call_method, _ ].
Qed.

Lemma preserves_fillPeers fuel : preserves R (_fillPeers fuel).
Proof.
  unfold _fillPeers. repeat preserves_step. apply preserves_connectPeer.
Qed.
End ConnectFrameLemmas.

Global Instance same_pool_preorder : PreOrder same_pool.
Proof.
  split.
  - intros g. repeat split.
  - intros g1 g2 g3 H1 H2. unfold same_pool in *.
    destruct_and!. repeat split; congruence.
Qed.

Global Instance same_pool_method : MethodFrame same_pool.
Proof. split; [apply _ | intros; repeat split ..]. Qed.

Global Instance same_pool_frame : ConnectFrame same_pool.
Proof. split; [apply _ | intros; repeat split ..]. Qed.

Global Instance trace_grows_method : MethodFrame trace_grows.
Proof.
  split; [apply _ | intros; try (exists []; simpl; by rewrite app_nil_r) ..].
  by eexists.
Qed.

Global Instance trace_grows_frame : ConnectFrame trace_grows.
Proof.
  split; [apply _ | intros; try (exists []; simpl; by rewrite app_nil_r) ..].
  by eexists.
Qed.

Global Instance same_peers_method : MethodFrame (same peers).
Proof. split; [apply _ | intros; reflexivity ..]. Qed.

Global Instance same_peers_connect : ConnectFrame (same peers).
Proof. split; [apply _ | intros; reflexivity ..]. Qed.

Global Instance same_issued_method : MethodFrame (same issued).
Proof. split; [apply _ | intros; reflexivity ..]. Qed.

Lemma emitted_call e g :
  is_emit e = false -> emitted (with_trace (trace g ++ [e]) g) = emitted g.
Proof.
  intros He. unfold emitted. simpl. rewrite filter_app, filter_cons.
  rewrite He. simpl. by rewrite app_nil_r.
Qed.

Lemma emitted_emit e g :
  is_emit e = true -> emitted (with_trace (trace g ++ [e]) g) = emitted g ++ [e].
Proof.
  intros He. unfold emitted. simpl. rewrite filter_app, filter_cons.
  by rewrite He.
Qed.

Global Instance same_emitted_method : MethodFrame (same emitted).
Proof.
  split; [apply _ | intros; try reflexivity ..].
  unfold same. by rewrite emitted_call.
Qed.

Lemma same_pool_getPeerArray g g' :
  same_pool g g' -> getPeerArray g' = getPeerArray g.
Proof.
  unfold same_pool, getPeerArray. intros H. destruct_and!.
  repeat match goal with H : _ = _ |- _ => rewrite <- H; clear H end.
  reflexivity.
Qed.

(** * What the event loop leaves alone *)

Lemma emit_peer_unfold fuel p g :
  emit_peer fuel p g =
  call_onPeer fuel [] (peerListeners g)
    (with_trace (trace g ++ [EmitPeer p]) g).
Proof. reflexivity. Qed.

(** [addPeer] is [admitted], then the 'peer' event. *)
Lemma addPeer_unfold fuel p g :
  addPeer fuel p g = emit_peer fuel p (admitted p g).
Proof.
  unfold addPeer, admitted, overflows, _onceReady, peer_disconnect, peer_once,
    peer_on, upd_peer, when, modify, gets, log, mbind, M_bind, mret, M_ret.
  simpl.
  destruct (ready (heap g p)); simpl;
    destruct (truthy (_hardLimit g)); simpl;
    destruct (_numPeers g <? Z.of_nat (length (peers g ++ [p]))); simpl;
    try reflexivity;
    destruct (peers g ++ [p]) as [|oldest rest] eqn:Hps; try reflexivity;
    by apply app_eq_nil in Hps as [_ ?].
Qed.

Ltac frame_leaf :=
  first
    [ assumption
    | apply frame_emit | apply frame_issued | apply frame_draws
    | apply frame_new | apply frame_phase | apply frame_heap
    | apply frame_next_peer | apply frame_peerListeners
    | apply frame_connecting | apply frame_exchange_peers
    | apply frame_splice | apply frame_clear
    | (etransitivity; [apply frame_heap | apply frame_next_peer])
    | apply preserves_connectPeer, _
    | apply preserves_fillPeers, _
    | apply preserves_getRandom, _
    | apply preserves_connectTCP, _ ].

Section EmitFrameLemmas.
Context (R : relation PeerGroup) `{!EmitFrame R}.

Lemma preserves_call_onPeer fuel kept todo :
  preserves R (call_onPeer fuel kept todo).
Proof.
  revert kept. induction todo as [|c rest IH]; intros kept; simpl.
  - preserves_step.
  - repeat preserves_step; first [apply IH | frame_leaf].
Qed.

Lemma preserves_emit_peer fuel p : preserves R (emit_peer fuel p).
Proof.
  unfold emit_peer, log.
  repeat preserves_step; first [apply preserves_call_onPeer | frame_leaf].
Qed.

End EmitFrameLemmas.

Section PoolFrameLemmas.
Context (R : relation PeerGroup) `{!PoolFrame R}.

Lemma preserves_addPeer fuel p : preserves R (addPeer fuel p).
Proof.
  intros g a g' H. rewrite addPeer_unfold in H.
  transitivity (admitted p g); [apply frame_admitted|].
  by eapply (preserves_emit_peer R).
Qed.

Lemma preserves_call_handler fuel p arg h :
  preserves R (call_handler fuel p arg h).
Proof.
  unfold call_handler, peer_removeListener, peer_disconnect, upd_peer, log.
  repeat preserves_step; first [apply preserves_addPeer | frame_leaf].
Qed.

Lemma preserves_peer_emit fuel p ev arg : preserves R (peer_emit fuel p ev arg).
Proof.
  unfold peer_emit, upd_peer.
  repeat preserves_step; first [apply preserves_call_handler | frame_leaf].
Qed.

Lemma preserves_onConnection fuel err s :
  preserves R (_onConnection (_connectPeer fuel) err s).
Proof.
  unfold _onConnection, new_Peer, peer_once, upd_peer, log.
  repeat preserves_step; frame_leaf.
Qed.

Lemma preserves_attempt_callback fuel aid err s :
  preserves R (attempt_callback fuel aid err s).
Proof.
  unfold attempt_callback, upd_attempt, log.
  repeat preserves_step; first [apply preserves_onConnection | frame_leaf].
Qed.

Lemma preserves_on_resolve fuel aid r : preserves R (on_resolve fuel aid r).
Proof.
  unfold on_resolve, upd_attempt.
  repeat preserves_step;
    first [apply preserves_attempt_callback | frame_leaf].
Qed.

Lemma preserves_connect fuel : preserves R (connect fuel).
Proof.
  unfold connect, _connectWebSeeds, log.
  repeat preserves_step; frame_leaf.
Qed.

Lemma preserves_disconnect : preserves R disconnect.
Proof.
  unfold disconnect, peer_disconnect, log. repeat preserves_step; frame_leaf.
Qed.

Lemma preserves_send command payload : preserves R (send command payload).
Proof.
  unfold send, _assertPeers, peer_send, log.
  repeat preserves_step; frame_leaf.
Qed.

Lemma preserves_randomPeer : preserves R randomPeer.
Proof.
  unfold randomPeer, _assertPeers. repeat preserves_step; frame_leaf.
Qed.

Lemma preserves_timer fuel aid : preserves R (step fuel (TimerFires aid)).
Proof.
  intros g a g' H. unfold step, gets in H. rewrite bind_unfold in H.
  cbv beta iota in H.
  destruct (timer_of aid g) as [[]|] eqn:Ht;
    try (injection H as _ <-; reflexivity).
  unfold on_timeout, upd_attempt, modify in H. rewrite bind_unfold in H.
  cbv beta iota in H.
  etransitivity; [by apply frame_fire|].
  revert H. generalize (with_attempts
    (alter (fun a => set_timedOut true (set_timer Fired a)) aid (attempts g)) g).
  intros g1 H. revert g1 a g' H.
  change (preserves R (log (EmitConnectError ErrTimedOut None);;
                       c ← gets connecting; when c (_connectPeer fuel))).
  unfold log. repeat preserves_step; frame_leaf.
Qed.

Lemma preserves_step_ev fuel ev : preserves R (step fuel ev).
Proof.
  destruct ev; try apply preserves_timer; unfold step, upd_attempt, upd_peer.
  all: repeat preserves_step;
    first [ apply preserves_connect | apply preserves_disconnect
          | apply preserves_addPeer | apply preserves_send
          | apply preserves_randomPeer | apply preserves_on_resolve
          | apply preserves_attempt_callback | apply preserves_onConnection
          | apply preserves_peer_emit | frame_leaf ].
Qed.

Lemma preserves_run fuel evs : preserves R (run fuel evs).
Proof.
  induction evs as [|ev evs IH]; simpl.
  - preserves_step.
  - repeat preserves_step; [apply preserves_step_ev | apply IH].
Qed.
End PoolFrameLemmas.

Global Instance same_peers_emit : EmitFrame (same peers).
Proof. split; [apply _ | intros; reflexivity ..]. Qed.

Global Instance trace_grows_emit : EmitFrame trace_grows.
Proof. split; [apply _ | intros; exists []; simpl; by rewrite app_nil_r]. Qed.
(** * Properties *)

(** ** Construction *)

Lemma assertParams_None params :
  assertParams params = None <-> exists p, params = Some p /\ accepted p.
Proof.
  unfold assertParams, accepted. destruct params as [p|]; split.
  - destruct (truthy (id p)) eqn:Hi, (nullish (magic p)) eqn:Hm,
      (truthy (defaultPort p)) eqn:Hd; simpl; intros H; try discriminate H.
    exists p. auto.
  - intros (q & [= <-] & Hi & Hm & Hd). rewrite Hi, Hm, Hd. reflexivity.
  - discriminate.
  - intros (q & Hq & _). discriminate Hq.
Qed.

Lemma assertParams_error params e : assertParams params = Some e -> e = ErrInvalidParams.
Proof.
  unfold assertParams. destruct params as [p|]; [|congruence].
  destruct (_ || _); congruence.
Qed.

(** C10, as stated, fails: [id], [magic] and [defaultPort] of
    [params_empty_id] are all present, and the constructor throws. *)
Lemma constructor_rejects_present_params :
  all_present params_empty_id /\
  constructor JUndefined (fun _ => 0%nat) (Some params_empty_id) None
  = inl ErrInvalidParams.
Proof. repeat split. Qed.

(** The exchange takes the ids that [assertParams] lets through when they
    are strings, and no others. *)
Lemma exchange_string_id (v : JSVal) :
  truthy v = true ->
  if is_string v then exchange v = None
  else exchange v = Some (ErrExternal "A network id must be specified").
Proof. destruct v as [| | b | n | [|c s]]; simpl; intros H; congruence. Qed.

(** C10, amended: construction succeeds exactly for the parameters whose
    [id] is a non-empty string, whose [defaultPort] is truthy and whose
    [magic] is not [null] or [undefined]; on success the pool starts empty
    and not connecting.  The constructor throws 'Invalid network parameters'
    exactly when [id] or [defaultPort] is not truthy, [magic] is [null] or
    [undefined], or the parameters are missing, and does so before any field
    of the pool is set: the result is the error alone.  For the remaining
    parameters, whose truthy [id] is not a string, it is the exchange that
    throws, 'A network id must be specified'. *)
Theorem constructor_accepts_iff (browser : JSVal) (rnd : nat -> nat)
    (params : option Params) (opts : option Opts) :
  ((exists p, params = Some p /\ accepted p /\ is_string (id p) = true) <->
   exists g, constructor browser rnd params opts = inr g /\
             peers g = [] /\ connecting g = false) /\
  (~ (exists p, params = Some p /\ accepted p) <->
   constructor browser rnd params opts = inl ErrInvalidParams) /\
  ((exists p, params = Some p /\ accepted p /\ is_string (id p) = false) <->
   constructor browser rnd params opts =
   inl (ErrExternal "A network id must be specified")).
Proof.
  pose proof (assertParams_None params) as HN.
  pose proof (assertParams_error params) as HE.
  unfold constructor.
  destruct (assertParams params) as [e|] eqn:Ha.
  - assert (~ exists p, params = Some p /\ accepted p) as Hno
      by (intros Hp; apply HN in Hp; discriminate Hp).
    rewrite (HE e eq_refl). split; [|split]; split.
    + intros (p & Hp & Hacc & _). destruct Hno. eauto.
    + intros (g & Hg & _). discriminate Hg.
    + reflexivity.
    + intros _. exact Hno.
    + intros (p & Hp & Hacc & _). destruct Hno. eauto.
    + discriminate.
  - destruct (proj1 HN eq_refl) as (p & -> & Hp).
    pose proof (exchange_string_id (id p) (proj1 Hp)) as Hx.
    destruct (is_string (id p)) eqn:Hs; rewrite Hx; (split; [|split]; split).
    + intros _. eexists. split; [reflexivity|]. split; reflexivity.
    + intros _. exists p. split; [reflexivity|]. split; [exact Hp | exact Hs].
    + intros Hn. destruct Hn. exists p. split; [reflexivity | exact Hp].
    + discriminate.
    + intros (q & [= <-] & _ & Hq). congruence.
    + discriminate.
    + intros (q & [= <-] & _ & Hq). congruence.
    + intros (g & Hg & _). discriminate Hg.
    + intros Hn. destruct Hn. exists p. split; [reflexivity | exact Hp].
    + discriminate.
    + reflexivity.
    + intros _. exists p. split; [reflexivity|]. split; [exact Hp | exact Hs].
Qed.

(** ** An attempt with no discovery method *)

Lemma connectPeer_unfold fuel g :
  _connectPeer (S fuel) g =
  let g1 := with_issued (S (issued g)) g in
  if decide (length (getPeerArray g) = 0%nat) then
    _onConnection (_connectPeer fuel) (Some ErrNoMethods) None g1
  else start_attempt (getPeerArray g) g1.
Proof.
  change (getPeerArray g) with (getPeerArray (with_issued (S (issued g)) g)).
  simpl. unfold mbind at 1, M_bind at 1. simpl.
  unfold mbind at 1, M_bind at 1. simpl.
  destruct (decide _); reflexivity.
Qed.

(** When the array of methods is empty, [_connectPeer] reports the error and,
    the pool not connecting, returns. *)
Lemma connectPeer_no_methods_idle fuel g :
  getPeerArray g = [] -> connecting g = false ->
  _connectPeer (S fuel) g =
  Ret tt (with_trace (trace g ++ [EmitConnectError ErrNoMethods None])
            (with_issued (S (issued g)) g)).
Proof.
  intros Hm Hc. rewrite connectPeer_unfold, Hm. simpl.
  unfold _onConnection, log, modify, gets, when.
  rewrite !bind_unfold. simpl. rewrite Hc. reflexivity.
Qed.

(** With the array of methods empty and the pool connecting, no amount of
    fuel makes [_connectPeer] return. *)
Lemma connectPeer_diverges fuel g :
  getPeerArray g = [] -> connecting g = true ->
  _connectPeer fuel g = OutOfFuel.
Proof.
  revert g. induction fuel as [|fuel IH]; intros g Hm Hc; [reflexivity|].
  rewrite connectPeer_unfold, Hm. simpl.
  unfold _onConnection, log, modify, gets, when.
  rewrite !bind_unfold. simpl. rewrite Hc.
  apply IH; [exact Hm | exact Hc].
Qed.

(** So [connect()] on a pool without any discovery method does not return
    either: [new PeerGroup(params_no_methods).connect()]. *)
Lemma connect_no_methods_never_returns fuel rnd :
  session fuel JUndefined rnd (Some params_no_methods) None [Call_connect]
  = inr OutOfFuel.
Proof.
  unfold session. simpl. rewrite bind_unfold. unfold connect, modify, gets.
  rewrite !bind_unfold. simpl. unfold _fillPeers, gets. rewrite bind_unfold.
  simpl. rewrite bind_unfold. by rewrite connectPeer_diverges.
Qed.

(** C5 (what the code does): with an empty array of methods and the pool
    connecting, [_connectPeer] calls [_onConnection] with the error, which
    emits 'connectError' and calls [_connectPeer] again, and so on: whatever
    the fuel, the call does not return. *)
Theorem connectPeer_no_methods_never_returns (fuel : nat) (g : PeerGroup) :
  getPeerArray g = [] -> connecting g = true ->
  _connectPeer fuel g = OutOfFuel.
Proof. apply connectPeer_diverges. Qed.

Lemma connectPeer_no_methods_never_returns_witness :
  getPeerArray pool_no_methods = [] /\ connecting pool_no_methods = true /\
  _connectPeer 1000 pool_no_methods = OutOfFuel.
Proof.
  split; [reflexivity|]. split; [reflexivity|].
  apply (connectPeer_no_methods_never_returns 1000 pool_no_methods);
    reflexivity.
Defined.

(** ** The static-peer dialer *)

Lemma getRandom_nonempty {A} (l : list A) g :
  l <> [] ->
  exists x, x ∈ l /\ getRandom l g = Ret (Some x) (with_draws (S (draws g)) g).
Proof.
  intros Hl.
  assert (length l <> 0)%nat as Hn by (destruct l; [congruence | discriminate]).
  destruct (lookup_lt_is_Some_2 l (random g (draws g) `mod` length l)%nat)
    as [x Hx]; [by apply Nat.mod_upper_bound|].
  exists x. split; [by eapply list_elem_of_lookup_2|].
  unfold getRandom, gets, modify. rewrite !bind_unfold. simpl.
  by rewrite Hx.
Qed.

Lemma connectStaticPeer_returns (aid : nat) (g : PeerGroup) :
  staticPeers (_params g) <> [] ->
  exists entry g',
    entry ∈ staticPeers (_params g) /\
    _connectStaticPeer aid g = Ret tt g' /\
    trace g' =
      trace g ++
      [NetConnect (defaultPort (_params g))
         (Some (hostname (parseAddress entry))) (TcpSocket aid);
       SocketSetTimeout (TcpSocket aid) 10000].
Proof.
  intros Hs.
  destruct (getRandom_nonempty (staticPeers (_params g)) g Hs)
    as (entry & Hin & Hr).
  exists entry. eexists. split; [exact Hin|].
  unfold _connectStaticPeer. rewrite bind_unfold. simpl.
  rewrite bind_unfold, Hr. unfold _connectTCP, log, upd_attempt, modify, gets.
  rewrite !bind_unfold. simpl. split; [reflexivity|].
  by rewrite <- app_assoc.
Qed.

(** C4 (what the code does): [_connectStaticPeer] picks an entry of
    [staticPeers], parses it, and calls [net.connect] with the parsed
    hostname but with [params.defaultPort]: the parsed port is handed to
    [_connectTCP], which does not use it. *)
Theorem connectStaticPeer_dials_defaultPort (aid : nat) (g : PeerGroup) :
  staticPeers (_params g) <> [] ->
  exists entry g',
    entry ∈ staticPeers (_params g) /\
    _connectStaticPeer aid g = Ret tt g' /\
    trace g' =
      trace g ++
      [NetConnect (defaultPort (_params g))
         (Some (hostname (parseAddress entry))) (TcpSocket aid);
       SocketSetTimeout (TcpSocket aid) 10000].
Proof. apply connectStaticPeer_returns. Qed.

Lemma connectStaticPeer_dials_defaultPort_witness :
  staticPeers (_params pool_static) <> [] /\
  port (parseAddress "example.com:18333") = JNum 18333 /\
  exists entry g',
    entry ∈ staticPeers (_params pool_static) /\
    _connectStaticPeer 0 pool_static = Ret tt g' /\
    trace g' =
      trace pool_static ++
      [NetConnect (JNum 8333) (Some (hostname (parseAddress entry)))
         (TcpSocket 0);
       SocketSetTimeout (TcpSocket 0) 10000].
Proof.
  split; [discriminate|]. split; [reflexivity|].
  apply (connectStaticPeer_dials_defaultPort 0 pool_static). discriminate.
Defined.

(** ** An attempt with a discovery method *)

Lemma preserves_start_attempt R `{!MethodFrame R} arr :
  preserves R (start_attempt arr).
Proof.
  unfold start_attempt.
  repeat preserves_step;
    first [ apply preserves_getRandom, _
          | apply preserves_new_attempt, _
          | apply preserves_call_method, _
          | by apply preserves_call ].
Qed.

Lemma getPeerArray_StaticPeer g :
  StaticPeer ∈ getPeerArray g -> staticPeers (_params g) <> [].
Proof.
  unfold getPeerArray. intros H Hs. rewrite Hs in H. simpl in H.
  repeat match type of H with
         | context [if ?b then _ else _] => destruct b; simpl in H
         end;
    repeat (apply elem_of_cons in H as [H|H]; [discriminate H|]);
    by apply elem_of_nil in H.
Qed.

Lemma call_method_returns m aid g :
  m ∈ getPeerArray g -> exists g', call_method m aid g = Ret tt g'.
Proof.
  intros Hm. destruct m; simpl.
  - eexists. unfold _connectDNSPeer, getRandom, log, upd_attempt, modify, gets.
    rewrite !bind_unfold. reflexivity.
  - apply getPeerArray_StaticPeer in Hm.
    destruct (connectStaticPeer_returns aid g Hm)
      as (entry & g' & _ & Hr & _).
    eauto.
  - eexists. unfold log, upd_attempt, modify. rewrite !bind_unfold.
    reflexivity.
  - eexists. unfold log, upd_attempt, modify. rewrite !bind_unfold.
    reflexivity.
Qed.

Lemma start_attempt_returns g :
  getPeerArray g <> [] ->
  exists g', start_attempt (getPeerArray g) g = Ret tt g'.
Proof.
  intros Hne. destruct (getRandom_nonempty _ g Hne) as (m & Hin & Hr).
  unfold start_attempt. rewrite bind_unfold, Hr.
  unfold gets, new_attempt, log, modify. rewrite !bind_unfold. simpl.
  destruct (negb _); rewrite !bind_unfold; simpl;
    apply call_method_returns; exact Hin.
Qed.

(** With a method to choose from, [_connectPeer] returns: it has counted one
    more call, emitted nothing and left the pool as it was. *)
Lemma connectPeer_returns fuel g :
  getPeerArray g <> [] ->
  exists g', _connectPeer (S fuel) g = Ret tt g' /\
             same_pool g g' /\ issued g' = S (issued g) /\
             emitted g' = emitted g.
Proof.
  intros Hne. rewrite connectPeer_unfold.
  destruct (decide _) as [H0|_]; [by apply length_zero_iff_nil in H0|].
  simpl. destruct (start_attempt_returns (with_issued (S (issued g)) g) Hne)
    as [g' Hg'].
  change (getPeerArray (with_issued (S (issued g)) g)) with (getPeerArray g)
    in Hg'.
  exists g'. split; [exact Hg'|].
  split; [|split].
  - apply (preserves_start_attempt same_pool) in Hg'.
    etransitivity; [|exact Hg']. repeat split.
  - by apply (preserves_start_attempt (same issued)) in Hg'.
  - by apply (preserves_start_attempt (same emitted)) in Hg'.
Qed.

(** [n] calls in a row. *)
Lemma times_connectPeer_returns fuel n g :
  getPeerArray g <> [] ->
  exists g', times n (_connectPeer (S fuel)) g = Ret tt g' /\
             same_pool g g' /\ issued g' = (issued g + n)%nat /\
             emitted g' = emitted g.
Proof.
  revert g. induction n as [|n IH]; intros g Hne; simpl.
  - exists g. split; [reflexivity|]. split; [reflexivity|].
    split; [lia | reflexivity].
  - destruct (connectPeer_returns fuel g Hne) as (g1 & H1 & Hp1 & Hi1 & He1).
    destruct (IH g1) as (g2 & H2 & Hp2 & Hi2 & He2).
    { by rewrite (same_pool_getPeerArray g g1). }
    exists g2. rewrite (bind_Ret _ _ _ _ _ H1). split; [exact H2|].
    split; [by etransitivity|]. split; [lia | congruence].
Qed.

(** [_fillPeers] issues the difference between [_numPeers] and the length of
    [peers], if positive. *)
Lemma fillPeers_returns fuel g :
  getPeerArray g <> [] ->
  exists g', _fillPeers (S fuel) g = Ret tt g' /\
             same_pool g g' /\
             issued g' =
               (issued g + Z.to_nat (_numPeers g - Z.of_nat (length (peers g))))%nat /\
             emitted g' = emitted g.
Proof.
  intros Hne. unfold _fillPeers. rewrite bind_unfold. simpl.
  by apply times_connectPeer_returns.
Qed.

(** ** Refilling after a disconnect *)

(** The 'disconnect' closure of [addPeer], the pool connecting and having a
    method to choose from. *)
Lemma OnDisconnect_returns fuel g p e :
  connecting g = true ->
  getPeerArray g <> [] ->
  exists g',
    call_handler (S fuel) p e OnDisconnect g = Ret tt g' /\
    peers g' = splice1 (indexOf p (peers g)) (peers g) /\
    issued g' =
      (issued g + Z.to_nat (_numPeers g - Z.of_nat (length (peers g'))))%nat /\
    emitted g' = emitted g ++ [EmitDisconnect p] /\
    heap g' = heap g.
Proof.
  intros Hc Hne. unfold call_handler, modify, gets.
  rewrite !bind_unfold. simpl. rewrite Hc. simpl.
  set (g2 := with_peers _ g).
  destruct (fillPeers_returns fuel g2 Hne) as (g3 & Hf & Hp & Hi & He).
  rewrite Hf. unfold log, modify. eexists. split; [reflexivity|].
  unfold same_pool in Hp. destruct_and!. simpl.
  assert (peers g3 = splice1 (indexOf p (peers g)) (peers g)) as Hp3
    by (symmetry; assumption).
  repeat split.
  - exact Hp3.
  - rewrite Hi, Hp3. reflexivity.
  - rewrite emitted_emit by reflexivity. by rewrite He.
  - symmetry. assumption.
Qed.


(** [indexOf] of a peer that is in the array is the index of its first
    occurrence, and [splice(index, 1)] removes that occurrence. *)
Lemma indexOf_present p l1 l2 :
  p ∉ l1 -> indexOf p (l1 ++ p :: l2) = Z.of_nat (length l1).
Proof.
  intros Hp. unfold indexOf.
  destruct (list_find _ (l1 ++ p :: l2)) as [[i q]|] eqn:Hf.
  - apply list_find_Some in Hf as (Hi & -> & Hmin).
    destruct (Nat.lt_trichotomy i (length l1)) as [Hlt|[->|Hgt]]; [|done|].
    + rewrite lookup_app_l in Hi by exact Hlt. destruct Hp.
      by eapply list_elem_of_lookup_2.
    + destruct (Hmin (length l1) p); [|exact Hgt|reflexivity].
      by rewrite list_lookup_middle.
  - apply list_find_None in Hf. rewrite Forall_app, Forall_cons in Hf.
    by destruct Hf as (_ & Hf & _).
Qed.

Lemma splice1_present p l1 l2 :
  p ∉ l1 -> splice1 (indexOf p (l1 ++ p :: l2)) (l1 ++ p :: l2) = l1 ++ l2.
Proof.
  intros Hp. rewrite (indexOf_present _ _ _ Hp). unfold splice1.
  rewrite length_app. simpl.
  replace (Z.to_nat _) with (length l1).
  - apply delete_middle.
  - destruct (Z.ltb_spec (Z.of_nat (length l1)) 0); lia.
Qed.



(** ** Admission of a peer that is not ready *)

(** Whatever the pool, [addPeer] of a peer that is not ready (and that does
    not overflow the array) has the peer in the set when 'peer' is emitted,
    still not ready, with the callback that will add it again registered. *)
Lemma admitted_unready p g :
  ready (heap g p) = false -> overflows p g = false ->
  peers (admitted p g) = peers g ++ [p] /\
  ready (heap (admitted p g) p) = false /\
  {| l_fn := OnceReadyAdd; l_once := true |} ∈ on_ready (heap (admitted p g) p).
Proof.
  intros Hr Ho. unfold admitted. rewrite Hr, Ho. simpl. unfold upd_heap.
  rewrite !decide_True by reflexivity. simpl. rewrite Hr.
  repeat split. apply elem_of_app. right. apply list_elem_of_here.
Qed.

(** C1 (what the code does): [addPeer] of a peer that is not ready registers
    the one-time 'ready' callback and goes on: the peer is in the set at
    once, not ready; when it becomes ready the callback adds it again, and
    the set holds it twice, with two 'peer' events emitted. *)
Theorem addPeer_unready_is_added_twice :
  (exists g,
     session 1 JUndefined (fun _ => 0%nat) (Some params_static) None
       [Call_addPeer (Manual 0)] = inr (Ret tt g) /\
     peers g = [Manual 0] /\ ready (heap g (Manual 0)) = false) /\
  (exists g,
     session 1 JUndefined (fun _ => 0%nat) (Some params_static) None
       [Call_addPeer (Manual 0); PeerIsReady (Manual 0)] = inr (Ret tt g) /\
     peers g = [Manual 0; Manual 0] /\
     emitted g = [EmitPeer (Manual 0); EmitPeer (Manual 0)]).
Proof.
  split; eexists; (split; [vm_compute; reflexivity|]); split; reflexivity.
Qed.

(** ** Removal of a peer that was evicted *)

(** [indexOf] of a peer that is not in the array is -1, and [splice(-1, 1)]
    removes the last element. *)
Lemma indexOf_absent p l : p ∉ l -> indexOf p l = -1.
Proof.
  intros Hp. unfold indexOf.
  destruct (list_find _ l) as [[i q]|] eqn:Hf; [|reflexivity].
  apply list_find_Some in Hf as (Hq & -> & _).
  destruct Hp. by eapply list_elem_of_lookup_2.
Qed.

Lemma splice1_absent p l x :
  p ∉ l ++ [x] -> splice1 (indexOf p (l ++ [x])) (l ++ [x]) = l.
Proof.
  intros Hp. rewrite (indexOf_absent _ _ Hp). unfold splice1.
  rewrite length_app. simpl.
  replace (Z.to_nat (Z.max (Z.of_nat (length l + 1) + -1) 0)) with (length l)
    by lia.
  rewrite delete_middle. apply app_nil_r.
Qed.

(** C3 (what the code does): with [numPeers = 2] and the hard limit, adding
    A, B, C evicts A and leaves [B, C]; when A's 'disconnect' event then
    fires, its handler finds A at index -1 and splices at -1: the set becomes
    [B], C having been removed instead of nothing. *)
Theorem disconnect_of_evicted_peer_removes_last :
  exists g g',
    session 1 JUndefined (fun _ => 0%nat) (Some params_static)
      (Some opts_hardLimit_2) session_ABC = inr (Ret tt g) /\
    peers g = [Manual 1; Manual 2] /\
    PeerDisconnect (Manual 0) ∈ trace g /\
    step 1 (PeerDisconnects (Manual 0) None) g = Ret tt g' /\
    peers g' = [Manual 1].
Proof.
  eexists. eexists. split; [vm_compute; reflexivity|].
  split; [reflexivity|]. split; [apply list_elem_of_In; simpl; auto 10|].
  split; [vm_compute; reflexivity | reflexivity].
Qed.

(** ** The default of [connectTimeout] *)

(** A falsy [opts.connectTimeout] is replaced by 5000 in the constructor, so
    the test [!this.connectTimeout] of [_connectPeer] fails on every pool the
    constructor made and left alone. *)
Lemma init_connectTimeout_falsy browser rnd p opts :
  truthy (o_connectTimeout opts) = false ->
  connectTimeout (init browser rnd p (Some opts)) = JNum 5000.
Proof. intros H. unfold init, js_or. simpl. by rewrite H. Qed.

Lemma init_connectTimeout_truthy browser rnd p opts :
  truthy (connectTimeout (init browser rnd p opts)) = true.
Proof.
  unfold init, js_or. simpl.
  by destruct (truthy (o_connectTimeout (default no_opts opts))) eqn:H.
Qed.

(** C6 (what the code does): constructed with [connectTimeout: 0], the pool
    has [connectTimeout = 5000]: [connect()] sets a timer of 5000 ms for its
    attempt, and when the timer fires 'Connection timed out' is emitted. *)
Theorem connectTimeout_zero_is_replaced_by_default :
  exists g,
    session 2 JUndefined (fun _ => 0%nat) (Some params_static)
      (Some opts_no_timeout) [Call_connect; TimerFires 0] = inr (Ret tt g) /\
    connectTimeout g = JNum 5000 /\
    SetTimeout 0 (JNum 5000) ∈ trace g /\
    emitted g = [EmitConnectError ErrTimedOut None].
Proof.
  eexists. split; [vm_compute; reflexivity|].
  split; [reflexivity|].
  split; [apply list_elem_of_In; simpl; auto 10 | reflexivity].
Qed.

(** ** Filling after [disconnect()] *)

Lemma for_of_peer_disconnect ps g :
  for_of ps peer_disconnect g =
  Ret tt (with_trace (trace g ++ map PeerDisconnect ps) g).
Proof.
  revert g. induction ps as [|p ps IH]; intros g; simpl.
  - rewrite app_nil_r. by destruct g.
  - unfold peer_disconnect, log, modify. rewrite bind_unfold.
    fold (peer_disconnect). rewrite IH. simpl.
    by rewrite <- app_assoc.
Qed.

(** [disconnect()] does clear [connecting] and call [disconnect] on every
    peer of the set, in order. *)
Lemma disconnect_returns g :
  disconnect g =
  Ret tt (with_trace (trace g ++ map PeerDisconnect (peers g))
            (with_connecting false g)).
Proof.
  unfold disconnect, modify, gets. rewrite !bind_unfold. cbv beta iota.
  by rewrite for_of_peer_disconnect.
Qed.

(** C9 (what the code does): [connect()] with web seeds registers [onPeer],
    which calls [_fillPeers] without testing [connecting].  After
    [disconnect()], the web seed's dial completing and its peer becoming
    ready runs [onPeer]: seven attempts are issued while the pool is not
    connecting. *)
Theorem late_seed_fills_after_disconnect :
  exists g,
    session 2 JUndefined (fun _ => 0%nat) (Some params_web) None
      session_late_seed = inr (Ret tt g) /\
    connecting g = false /\ peers g = [Dialed 0] /\
    issued g = 7%nat /\ length (attempts g) = 7%nat.
Proof.
  eexists. split; [vm_compute; reflexivity|]. repeat split.
Qed.

(** ** Admission under the hard limit *)


(** ** Admission under the hard limit *)

Lemma call_onPeer_returns fuel kept todo g :
  getPeerArray g <> [] ->
  exists g', call_onPeer (S fuel) kept todo g = Ret tt g'.
Proof.
  revert kept g. induction todo as [|c rest IH]; intros kept g Hne.
  - by eexists.
  - cbn [call_onPeer]. destruct (_ <? _).
    + unfold modify. rewrite bind_unfold. by apply IH.
    + unfold modify. rewrite !bind_unfold.
      set (g1 := with_peerListeners _ g).
      destruct (fillPeers_returns fuel g1 Hne) as (g2 & -> & Hp & _).
      apply IH. by rewrite (same_pool_getPeerArray g1 g2).
Qed.

Lemma emit_peer_returns fuel p g :
  peerListeners g = [] \/ getPeerArray g <> [] ->
  exists g', emit_peer (S fuel) p g = Ret tt g'.
Proof.
  intros [Hl|Hne]; rewrite emit_peer_unfold.
  - rewrite Hl. by eexists.
  - by apply call_onPeer_returns.
Qed.

Lemma admitted_frame p g :
  peerListeners (admitted p g) = peerListeners g /\
  getPeerArray (admitted p g) = getPeerArray g /\
  _numPeers (admitted p g) = _numPeers g /\
  _hardLimit (admitted p g) = _hardLimit g /\
  attempts (admitted p g) = attempts g.
Proof.
  unfold admitted. destruct (overflows p g); [|repeat split].
  destruct (peers g ++ [p]); repeat split.
Qed.

(** What [admitted] does to the array: the new peer appended, and the front
    shifted out and disconnected when the array overflows. *)
Lemma admitted_peers p g :
  if overflows p g then
    exists oldest rest,
      peers g ++ [p] = oldest :: rest /\ peers (admitted p g) = rest /\
      trace (admitted p g) = trace g ++ [PeerDisconnect oldest]
  else peers (admitted p g) = peers g ++ [p] /\ trace (admitted p g) = trace g.
Proof.
  unfold admitted. destruct (overflows p g); [|by split].
  destruct (peers g ++ [p]) as [|oldest rest] eqn:Hps.
  - by apply app_eq_nil in Hps as [_ ?].
  - exists oldest, rest. repeat split.
Qed.

Lemma admitted_within_limit p g :
  truthy (_hardLimit g) = true -> within_limit g -> within_limit (admitted p g).
Proof.
  intros Hh Hw. pose proof (admitted_peers p g) as Hp.
  pose proof (admitted_frame p g) as (_ & _ & Hn & _).
  unfold within_limit in *. rewrite Hn.
  destruct (overflows p g) eqn:Ho.
  - destruct Hp as (oldest & rest & Hps & -> & _).
    apply (f_equal length) in Hps. rewrite length_app in Hps.
    simpl in Hps. lia.
  - destruct Hp as [-> _]. unfold overflows in Ho. rewrite Hh in Ho.
    simpl in Ho. lia.
Qed.

Lemma splice1_length i l : (length (splice1 i l) <= length l)%nat.
Proof. unfold splice1. apply sublist_length, sublist_delete. Qed.

Global Instance keeps_limit_preorder : PreOrder keeps_limit.
Proof.
  split.
  - intros g. repeat split. auto.
  - intros g1 g2 g3 (Hh1 & Hn1 & H1) (Hh2 & Hn2 & H2).
    split; [congruence|]. split; [congruence|].
    intros Hh Hw. apply H2; [congruence | by apply H1].
Qed.

Global Instance keeps_limit_method : MethodFrame keeps_limit.
Proof. split; [apply _ | intros; repeat split; auto ..]. Qed.

Global Instance keeps_limit_connect : ConnectFrame keeps_limit.
Proof. split; [apply _ | intros; repeat split; auto ..]. Qed.

Global Instance keeps_limit_emit : EmitFrame keeps_limit.
Proof. split; [apply _ | intros; repeat split; auto ..]. Qed.

Global Instance keeps_limit_pool : PoolFrame keeps_limit.
Proof.
  split; [apply _ | try (intros; repeat split; by auto) ..].
  - intros i g. repeat split. unfold within_limit. simpl.
    pose proof (splice1_length i (peers g)). lia.
  - intros p g. pose proof (admitted_frame p g) as (_ & _ & Hn & Hh & _).
    repeat split; [done..|]. apply admitted_within_limit.
Qed.

(** The limit is kept by every event: a pool built with the hard limit and
    a target that is not negative never holds more than [_numPeers] peers. *)
Lemma hardLimit_invariant fuel browser rnd p opts evs g :
  truthy (_hardLimit (init browser rnd p opts)) = true ->
  0 <= _numPeers (init browser rnd p opts) ->
  run fuel evs (init browser rnd p opts) = Ret tt g ->
  within_limit g.
Proof.
  intros Hh Hn Hr.
  apply (preserves_run keeps_limit) in Hr as (_ & _ & Hw).
  apply Hw; [exact Hh | exact Hn].
Qed.

(** C8: with the hard limit set and the array within the limit, [addPeer]
    returns (whenever no 'peer' listener of [connect()] is pending, or a
    discovery method is there for it to fill with), and whenever it returns
    the array is within the limit again; if there was room the new peer is
    appended; if the array was full, the peer at the front of the array with
    the new peer appended (the earliest admitted) is the one removed and
    disconnected, before 'peer' is emitted for the new one. *)
Theorem addPeer_hardLimit_evicts_oldest (fuel : nat) (g : PeerGroup)
    (p : PeerId) :
  truthy (_hardLimit g) = true ->
  within_limit g ->
  (peerListeners g = [] \/ getPeerArray g <> [] ->
   exists g', addPeer (S fuel) p g = Ret tt g') /\
  (forall fuel' g',
     addPeer fuel' p g = Ret tt g' ->
     within_limit g' /\
     (Z.of_nat (length (peers g)) < _numPeers g ->
      peers g' = peers g ++ [p]) /\
     (Z.of_nat (length (peers g)) = _numPeers g ->
      exists oldest rest,
        peers g ++ [p] = oldest :: rest /\ peers g' = rest /\
        exists tl,
          trace g' = trace g ++ PeerDisconnect oldest :: EmitPeer p :: tl)).
Proof.
  intros Hh Hw. split.
  - intros Hret. rewrite addPeer_unfold. apply emit_peer_returns.
    pose proof (admitted_frame p g) as (-> & -> & _). exact Hret.
  - intros fuel' g' Hr. split.
    { apply (preserves_addPeer keeps_limit) in Hr as (_ & _ & H). by apply H. }
    rewrite addPeer_unfold in Hr.
    pose proof (preserves_emit_peer (same peers) _ _ _ _ _ Hr) as Hp.
    unfold same in Hp. rewrite emit_peer_unfold in Hr.
    apply (preserves_call_onPeer trace_grows) in Hr as [tl Ht].
    simpl in Ht. rewrite <- Hp, Ht. clear Hp Ht.
    pose proof (admitted_peers p g) as Ha. unfold overflows in Ha.
    rewrite Hh, length_app in Ha. simpl in Ha. unfold within_limit in Hw.
    match type of Ha with
    | context [?a <? ?b] => destruct (Z.ltb_spec a b) as [Hlt|Hlt]
    end; simpl in Ha; (split; intros Hlen; [try lia | try lia]).
    + destruct Ha as (oldest & rest & Hps & -> & ->).
      exists oldest, rest. split; [exact Hps|]. split; [reflexivity|].
      exists tl. by rewrite <- !app_assoc.
    + by destruct Ha as [-> _].
Qed.

Lemma addPeer_hardLimit_evicts_oldest_witness :
  truthy (_hardLimit pool_AB) = true /\ within_limit pool_AB /\
  peers pool_AB = [Manual 0; Manual 1] /\
  exists g',
    addPeer 1 (Manual 2) pool_AB = Ret tt g' /\
    within_limit g' /\
    exists oldest rest,
      peers pool_AB ++ [Manual 2] = oldest :: rest /\ peers g' = rest /\
      exists tl,
        trace g' =
        trace pool_AB ++ PeerDisconnect oldest :: EmitPeer (Manual 2) :: tl.
Proof.
  assert (truthy (_hardLimit pool_AB) = true) as Hh by reflexivity.
  assert (within_limit pool_AB) as Hw by (vm_compute; discriminate).
  split; [exact Hh|]. split; [exact Hw|]. split; [reflexivity|].
  destruct (addPeer_hardLimit_evicts_oldest 0 pool_AB (Manual 2) Hh Hw)
    as [Hret Hpost].
  destruct Hret as [g' Hg']; [left; reflexivity|].
  exists g'. split; [exact Hg'|].
  destruct (Hpost 1%nat g' Hg') as (Hw' & _ & Hfull).
  split; [exact Hw'|]. apply Hfull. reflexivity.
Defined.

(** The scenario of the specification: target 2, hard limit, A, B, C
    admitted in turn.  B and C are left, and A is the peer disconnected, when C is
    admitted. *)
Lemma hardLimit_ABC :
  exists g,
    session 1 JUndefined (fun _ => 0%nat) (Some params_static)
      (Some opts_hardLimit_2) session_ABC = inr (Ret tt g) /\
    peers g = [Manual 1; Manual 2] /\
    trace g =
      [EmitPeer (Manual 0); EmitPeer (Manual 1); PeerDisconnect (Manual 0);
       EmitPeer (Manual 2)].
Proof.
  eexists. split; [vm_compute; reflexivity|]. split; reflexivity.
Qed.

Global Instance trace_grows_pool : PoolFrame trace_grows.
Proof.
  split; [apply _ | try (intros; exists []; simpl; by rewrite app_nil_r) ..].
  intros p g. pose proof (admitted_peers p g) as H.
  destruct (overflows p g).
  - destruct H as (oldest & rest & _ & _ & Ht). by eexists.
  - destruct H as [_ Ht]. exists []. by rewrite app_nil_r.
Qed.

(** ** The timer and the callback of an attempt *)

Global Instance settles_preorder : PreOrder settles.
Proof.
  split.
  - intros x. repeat split; auto.
  - intros x y z (H1 & H2 & H3 & H4) (H1' & H2' & H3' & H4').
    repeat split; auto.
Qed.

Global Instance attempts_settle_preorder : PreOrder attempts_settle.
Proof.
  split.
  - intros g aid x Hx. exists x. split; [exact Hx | reflexivity].
  - intros g1 g2 g3 H12 H23 aid x Hx.
    destruct (H12 aid x Hx) as (y & Hy & Hxy).
    destruct (H23 aid y Hy) as (z & Hz & Hyz).
    exists z. split; [exact Hz | by transitivity y].
Qed.

Lemma attempts_settle_same g g' : attempts g' = attempts g -> attempts_settle g g'.
Proof. intros H aid x Hx. exists x. rewrite H. split; [exact Hx | reflexivity]. Qed.

Lemma attempts_settle_alter f aid g :
  (forall x, attempts g !! aid = Some x -> settles x (f x)) ->
  attempts_settle g (with_attempts (alter f aid (attempts g)) g).
Proof.
  intros Hf i x Hx. simpl. destruct (decide (i = aid)) as [->|Hne].
  - exists (f x). rewrite list_lookup_alter_eq, Hx. split; [reflexivity | auto].
  - exists x. rewrite list_lookup_alter_ne by done.
    split; [exact Hx | reflexivity].
Qed.

Global Instance attempts_settle_method : MethodFrame attempts_settle.
Proof.
  split; [apply _ | try (intros; by apply attempts_settle_same) ..].
  - intros x g aid y Hy. exists y. simpl.
    rewrite lookup_app_l by (by eapply lookup_lt_Some).
    split; [exact Hy | reflexivity].
  - intros aid p g. apply attempts_settle_alter. intros x _.
    repeat split; auto.
Qed.

Global Instance attempts_settle_connect : ConnectFrame attempts_settle.
Proof. split; [apply _ | intros; by apply attempts_settle_same ..]. Qed.

Global Instance attempts_settle_emit : EmitFrame attempts_settle.
Proof. split; [apply _ | intros; by apply attempts_settle_same]. Qed.

Global Instance attempts_settle_pool : PoolFrame attempts_settle.
Proof.
  split; [apply _ | try (intros; by apply attempts_settle_same) ..].
  - intros aid g. apply attempts_settle_alter. intros x _.
    destruct (a_timer x) eqn:Ht; repeat split; simpl; auto; congruence.
  - intros p g. apply attempts_settle_same.
    by pose proof (admitted_frame p g) as (_ & _ & _ & _ & ->).
  - intros aid g Ht. apply attempts_settle_alter. intros x Hx.
    unfold timer_of in Ht. rewrite Hx in Ht. injection Ht as Ht.
    repeat split; simpl; auto; congruence.
Qed.















(** * Further properties *)

(** ** [send] and [randomPeer] *)

Lemma for_of_log {A} (f : A -> Effect) (l : list A) g :
  for_of l (fun x => log (f x)) g =
  Ret tt (with_trace (trace g ++ map f l) g).
Proof.
  revert g. induction l as [|x l IH]; intros g; simpl.
  - rewrite app_nil_r. by destruct g.
  - rewrite bind_unfold.
    change (log (f x) g) with (Ret tt (with_trace (trace g ++ [f x]) g)).
    cbv iota. rewrite IH. simpl. by rewrite <- app_assoc.
Qed.

(** X1: [send] throws 'Not connected to any peers' on an empty set, before
    it calls any peer and leaving the pool as it is; otherwise it calls
    [send] on every peer of the set once, in the order of the array, and
    changes nothing else. *)
Theorem send_fans_out (command payload : string) (g : PeerGroup) :
  send command payload g =
  match peers g with
  | [] => Throw ErrNotConnected g
  | _ :: _ =>
      Ret tt
        (with_trace
           (trace g ++ map (fun p => PeerSend p command payload) (peers g)) g)
  end.
Proof.
  unfold send, _assertPeers, gets. rewrite !bind_unfold. cbv beta iota.
  destruct (peers g) as [|p ps] eqn:Hp; [reflexivity|].
  simpl. rewrite bind_unfold. cbv beta iota. rewrite Hp.
  unfold peer_send. by rewrite for_of_log.
Qed.

(** X2: [randomPeer] throws 'Not connected to any peers' on an empty set and
    otherwise returns a peer that is in the set; the pool is as it was, one
    random number drawn. *)
Theorem randomPeer_is_member (g : PeerGroup) :
  match peers g with
  | [] => randomPeer g = Throw ErrNotConnected g
  | _ :: _ =>
      exists p, p ∈ peers g /\
                randomPeer g = Ret (Some p) (with_draws (S (draws g)) g)
  end.
Proof.
  unfold randomPeer, _assertPeers, gets.
  destruct (peers g) as [|p ps] eqn:Hp.
  - rewrite !bind_unfold. cbv beta iota. by rewrite Hp.
  - destruct (getRandom_nonempty (p :: ps) g) as (q & Hq & Hr); [done|].
    exists q. split; [exact Hq|].
    rewrite !bind_unfold. cbv beta iota. rewrite Hp. simpl.
    rewrite !bind_unfold. cbv beta iota. rewrite Hp. exact Hr.
Qed.

(** ** The eligible discovery methods *)

(** X3: which methods [_connectPeer] may choose.  The two TCP dialers are
    eligible only outside the browser and only with a non-empty list; the
    exchange only when [_connectWeb] is truthy and the exchange already
    holds a peer; the hook only when the params carry it.  No method is
    listed twice. *)
Theorem getPeerArray_eligible (g : PeerGroup) :
  (DNSPeer ∈ getPeerArray g <->
   truthy (process_browser g) = false /\ dnsSeeds (_params g) <> []) /\
  (StaticPeer ∈ getPeerArray g <->
   truthy (process_browser g) = false /\ staticPeers (_params g) <> []) /\
  (ExchangeNewPeer ∈ getPeerArray g <->
   truthy (_connectWeb g) = true /\ (0 < exchange_peers g)%nat) /\
  (ParamsNewPeer ∈ getPeerArray g <-> getNewPeer (_params g) = true) /\
  NoDup (getPeerArray g).
Proof.
  unfold getPeerArray.
  destruct (truthy (process_browser g)), (dnsSeeds (_params g)) as [|d ds],
    (staticPeers (_params g)) as [|s ss], (truthy (_connectWeb g)),
    (exchange_peers g) as [|n], (getNewPeer (_params g)); simpl;
    repeat split; intros;
    repeat match goal with
      | H : _ /\ _ |- _ => destruct H
      | H : _ ∈ [] |- _ => by apply elem_of_nil in H
      | H : _ ∈ _ :: _ |- _ => apply elem_of_cons in H as [H|H]
      | |- NoDup _ => repeat constructor
      | |- _ ∉ _ => intros ?
      end;
    try done; try lia;
    repeat first [apply list_elem_of_here | apply list_elem_of_further].
Qed.

(** ** The defaults of the constructor *)



(** ** [accept] and [unaccept] *)

(** X5: [accept] listens on [opts.port], or on 8192 when the port is missing
    or falsy or when only a callback is given: the port it records and hands
    to the exchange is never falsy.  Called with neither options nor
    callback it throws, reading [port] of [undefined], before anything is
    recorded. *)
Theorem accept_port (opts : AcceptArg) (cb : bool) (err1 err2 : option Error)
    (l : Listening) :
  match opts with
  | ArgUndefined =>
      accept opts cb err1 err2 l = Thrown (ErrExternal "TypeError") l
  | _ =>
      exists l',
        (accept opts cb err1 err2 l = Done l' \/
         exists e, accept opts cb err1 err2 l = Thrown e l') /\
        (errorListener l = true -> accept opts cb err1 err2 l = Done l') /\
        truthy (websocketPort l') = true /\
        websocketPort l' =
          match opts with
          | ArgOptions p => if truthy p then p else JNum 8192
          | _ => JNum 8192
          end /\
        exists tl,
          l_trace l' =
          l_trace l ++
          ExchangeAccept "websocket" (Some (websocketPort l')) ::
          ExchangeAccept "webrtc" None :: tl
  end.
Proof.
  destruct opts as [| |p]; [reflexivity| |];
    unfold accept, accept_call, accept_on_webrtc, accept_on_websocket, finish,
      report, _error, js_or; cbn [l_log errorListener websocketPort l_trace];
    destruct cb, (errorListener l) eqn:Hl, (is_webrtc_not_found err2),
      err1, err2;
    cbn [l_log errorListener websocketPort l_trace]; rewrite ?Hl;
    (eexists;
     split; [first [left; reflexivity | right; eexists; reflexivity]|];
     split; [intros Hx; first [reflexivity | discriminate Hx]|]);
    cbn; try (destruct (truthy p) eqn:Hp); repeat split; try assumption;
    rewrite <- ?app_assoc; simpl; eauto.
Qed.

(** X6: how [accept] ends.  With a callback, the callback is called once,
    with the websocket error or else the webrtc error, and no 'error' event
    is emitted.  Without one, the errors go to [this.emit('error', err)]:
    when the pool has an 'error' listener each error is emitted, the
    websocket one first, and the call returns; when it has none, the first
    error is thrown out of the exchange's callback and the second is never
    reached.  An error 'Transport "webrtc" not found' counts as no error: it
    is neither passed on, emitted nor thrown, and [acceptingWebRTC] is set
    as after a success.  A flag that is not set is left as it was, and both
    flags are settled before anything is thrown. *)
Theorem accept_reports (opts : AcceptArg) (cb : bool)
    (err1 err2 : option Error) (l : Listening) :
  match opts with
  | ArgUndefined => True
  | _ =>
    let cb' := match opts with ArgFunction => true | _ => cb end in
    let err2' := if is_webrtc_not_found err2 then None else err2 in
    exists l',
      accept opts cb err1 err2 l =
        (if cb' || errorListener l then Done l'
         else match first_error err1 err2' with
              | Some e => Thrown e l'
              | None => Done l'
              end) /\
      l_trace l' =
        l_trace l ++
        [ExchangeAccept "websocket" (Some (websocketPort l'));
         ExchangeAccept "webrtc" None] ++
        (if cb' then [CallCb (first_error err1 err2')]
         else if errorListener l then
              match err1 with Some e => [EmitError e] | None => [] end ++
              match err2' with Some e => [EmitError e] | None => [] end
         else []) /\
      errorListener l' = errorListener l /\
      acceptingWebsocket l' =
        match err1 with None => true | Some _ => acceptingWebsocket l end /\
      acceptingWebRTC l' =
        match err2' with None => true | Some _ => acceptingWebRTC l end
  end.
Proof.
  destruct opts as [| |p]; [exact I | |];
    unfold accept, accept_call, accept_on_webrtc, accept_on_websocket, finish,
      report, _error; cbn [l_log errorListener websocketPort l_trace];
    destruct cb, (errorListener l) eqn:Hl, (is_webrtc_not_found err2),
      err1, err2;
    cbn [l_log errorListener websocketPort l_trace first_error orb];
    rewrite ?Hl; (eexists; split; [reflexivity|]); cbn;
    rewrite <- ?app_assoc; repeat split.
Qed.

(** X7: [unaccept] asks the exchange to stop both transports and reports
    like [accept]: the callback once, or else the errors to
    [this.emit('error', err)], which emits each when the pool has an 'error'
    listener and throws the first when it has none.  It resets nothing: the
    port and the two flags are as before. *)
Theorem unaccept_keeps_flags (cb : bool) (err1 err2 : option Error)
    (l : Listening) :
  exists l',
    unaccept cb err1 err2 l =
      (if cb || errorListener l then Done l'
       else match first_error err1 err2 with
            | Some e => Thrown e l'
            | None => Done l'
            end) /\
    websocketPort l' = websocketPort l /\
    acceptingWebsocket l' = acceptingWebsocket l /\
    acceptingWebRTC l' = acceptingWebRTC l /\
    errorListener l' = errorListener l /\
    l_trace l' =
      l_trace l ++
      [ExchangeUnaccept "websocket"; ExchangeUnaccept "webrtc"] ++
      (if cb then [CallCb (first_error err1 err2)]
       else if errorListener l then
            match err1 with Some e => [EmitError e] | None => [] end ++
            match err2 with Some e => [EmitError e] | None => [] end
       else []).
Proof.
  unfold unaccept, finish, report, _error.
  cbn [l_log errorListener websocketPort l_trace].
  destruct cb, (errorListener l) eqn:Hl, err1, err2;
    cbn [l_log errorListener websocketPort l_trace first_error orb];
    rewrite ?Hl; (eexists; split; [reflexivity|]); cbn;
    rewrite <- ?app_assoc; repeat split; assumption.
Qed.

(** ** A discovery failure *)

Lemma onConnection_error_idle cp e s g :
  connecting g = false ->
  _onConnection cp (Some e) s g =
  Ret tt (with_trace (trace g ++ [EmitConnectError e None]) g).
Proof.
  intros Hc. unfold _onConnection, log, modify, gets. rewrite !bind_unfold.
  cbv beta iota. cbn [connecting with_trace]. by rewrite Hc.
Qed.

(** [_onConnection(err)]: the error is emitted once; while the pool is
    connecting one call of [_connectPeer] follows, which emits nothing. *)
Lemma onConnection_error_returns fuel e s g :
  can_chain g ->
  exists g',
    _onConnection (_connectPeer (S fuel)) (Some e) s g = Ret tt g' /\
    emitted g' = emitted g ++ [EmitConnectError e None] /\
    same_pool g g' /\
    issued g' = (issued g + if connecting g then 1 else 0)%nat.
Proof.
  intros Hc. destruct (connecting g) eqn:Hcon.
  - destruct Hc as [Hc|Hne]; [congruence|].
    unfold _onConnection, log, modify, gets. rewrite !bind_unfold.
    cbv beta iota. cbn [connecting with_trace]. rewrite Hcon. cbn [when].
    set (g1 := with_trace _ g).
    destruct (connectPeer_returns fuel g1 Hne) as (g' & Hr & Hp & Hi & He).
    exists g'. split; [exact Hr|]. split; [|split].
    + rewrite He. subst g1. by rewrite emitted_emit.
    + etransitivity; [|exact Hp]. by repeat split.
    + rewrite Hi. subst g1. simpl. lia.
  - rewrite onConnection_error_idle by done. eexists. split; [reflexivity|].
    split; [by rewrite emitted_emit|]. split; [by repeat split|]. simpl. lia.
Qed.

Lemma emitted_same_trace g g' : trace g' = trace g -> emitted g' = emitted g.
Proof. unfold emitted. by intros ->. Qed.

(** The callback of an attempt whose timer has not fired hands the error to
    [_onConnection]. *)
Lemma attempt_callback_live fuel aid a e g :
  attempts g !! aid = Some a -> a_timedOut a = false -> can_chain g ->
  exists g',
    attempt_callback (S fuel) aid (Some e) None g = Ret tt g' /\
    emitted g' = emitted g ++ [EmitConnectError e None] /\
    same_pool g g' /\
    issued g' = (issued g + if connecting g then 1 else 0)%nat /\
    attempts_settle g g'.
Proof.
  intros Ha Hto Hc. unfold attempt_callback, gets. rewrite bind_unfold.
  cbv beta iota. rewrite Ha, Hto.
  assert (forall g2,
    same_pool g g2 -> emitted g2 = emitted g -> issued g2 = issued g ->
    attempts_settle g g2 ->
    exists g',
      _onConnection (_connectPeer (S fuel)) (Some e) None g2 = Ret tt g' /\
      emitted g' = emitted g ++ [EmitConnectError e None] /\
      same_pool g g' /\
      issued g' = (issued g + if connecting g then 1 else 0)%nat /\
      attempts_settle g g') as Hon.
  { intros g2 Hp He Hi Hs.
    assert (can_chain g2) as Hc2.
    { unfold can_chain. rewrite (same_pool_getPeerArray g g2 Hp).
      destruct Hp as (_ & _ & _ & _ & _ & _ & _ & <- & _). exact Hc. }
    destruct (onConnection_error_returns fuel e None g2 Hc2)
      as (g' & Hr & He' & Hp' & Hi').
    exists g'. split; [exact Hr|]. split; [congruence|].
    split; [by etransitivity|]. split.
    - rewrite Hi', Hi.
      by destruct Hp as (_ & _ & _ & _ & _ & _ & _ & <- & _).
    - etransitivity; [exact Hs|].
      by eapply (preserves_onConnection attempts_settle). }
  destruct (a_timer a) eqn:Ht.
  - by apply Hon.
  - unfold log, upd_attempt, modify. rewrite !bind_unfold. apply Hon.
    + by repeat split.
    + unfold emitted. simpl. rewrite filter_app. simpl. by rewrite app_nil_r.
    + reflexivity.
    + etransitivity; [apply (frame_emit (ClearTimeout aid))|].
      apply frame_clear.
  - unfold log, upd_attempt, modify. rewrite !bind_unfold. apply Hon.
    + by repeat split.
    + unfold emitted. simpl. rewrite filter_app. simpl. by rewrite app_nil_r.
    + reflexivity.
    + etransitivity; [apply (frame_emit (ClearTimeout aid))|].
      apply frame_clear.
  - unfold log, upd_attempt, modify. rewrite !bind_unfold. apply Hon.
    + by repeat split.
    + unfold emitted. simpl. rewrite filter_app. simpl. by rewrite app_nil_r.
    + reflexivity.
    + etransitivity; [apply (frame_emit (ClearTimeout aid))|].
      apply frame_clear.
Qed.

Lemma phase_then_callback_live fuel aid a p e g :
  attempts g !! aid = Some a -> a_timedOut a = false -> can_chain g ->
  exists g',
    (upd_attempt aid (set_phase p) ;;
     attempt_callback (S fuel) aid (Some e) None) g = Ret tt g' /\
    emitted g' = emitted g ++ [EmitConnectError e None] /\
    same_pool g g' /\
    issued g' = (issued g + if connecting g then 1 else 0)%nat.
Proof.
  intros Ha Hto Hc. unfold upd_attempt, modify. rewrite bind_unfold.
  set (g1 := with_attempts _ g).
  destruct (attempt_callback_live fuel aid (set_phase p a) e g1)
    as (g' & Hr & He & Hp & Hi & _).
  - subst g1. simpl. by rewrite list_lookup_alter_eq, Ha.
  - exact Hto.
  - exact Hc.
  - exists g'. split; [exact Hr|]. split; [exact He|].
    split; [|exact Hi]. etransitivity; [|exact Hp]. by repeat split.
Qed.

(** X8: a discovery method that fails before the timer of its attempt has
    fired (the socket's 'error', a failed resolution, the method's callback
    with an error) is reported by exactly one 'connectError' carrying that
    error and no peer; the pool is otherwise unchanged, and while it is
    connecting exactly one new call of [_connectPeer] follows. *)
Theorem discovery_failure_reported_once (fuel aid : nat) (ev : Event)
    (e : Error) (a : Attempt) (g : PeerGroup) :
  attempts g !! aid = Some a ->
  a_timedOut a = false ->
  calls_back aid ev g = true ->
  failure_of ev = Some e ->
  can_chain g ->
  exists g',
    step (S fuel) ev g = Ret tt g' /\
    emitted g' = emitted g ++ [EmitConnectError e None] /\
    same_pool g g' /\
    issued g' = (issued g + if connecting g then 1 else 0)%nat.
Proof.
  intros Ha Hto Hcb Hf Hc. unfold calls_back in Hcb.
  destruct ev; try discriminate Hf;
    destruct (phase_of aid g) as [[| |[] []| |]|] eqn:Hph;
    try discriminate Hcb;
    try (destruct r; try discriminate Hcb; try discriminate Hf);
    apply bool_decide_eq_true in Hcb as ->;
    injection Hf as ->;
    unfold step, gets; rewrite bind_unfold; cbv beta iota; rewrite Hph;
    first [ by eapply phase_then_callback_live
          | unfold on_resolve; by eapply phase_then_callback_live
          | destruct (attempt_callback_live fuel aid a e g Ha Hto Hc)
              as (g' & ? & ? & ? & ? & _); by exists g' ].
Qed.

Lemma discovery_failure_reported_once_witness :
  exists g',
    step 1 (SocketError 0 (ErrExternal "ECONNREFUSED")) pool_connected
      = Ret tt g' /\
    emitted g' =
      emitted pool_connected ++
      [EmitConnectError (ErrExternal "ECONNREFUSED") None] /\
    issued g' = (issued pool_connected + 1)%nat.
Proof.
  destruct (discovery_failure_reported_once 0 0
              (SocketError 0 (ErrExternal "ECONNREFUSED"))
              (ErrExternal "ECONNREFUSED")
              {| a_method := StaticPeer; a_timer := Armed;
                 a_timedOut := false; a_phase := Connecting true true |}
              pool_connected)
    as (g' & Hr & He & _ & Hi);
    [ reflexivity | reflexivity | reflexivity | reflexivity
    | right; vm_compute; discriminate | ].
  exists g'. split; [exact Hr|]. split; [exact He | exact Hi].
Defined.

(** ** A pool that is not connecting *)

Lemma quiet_ret {A} (a : A) : quiet (mret a).
Proof. intros g Hc. by exists a, g. Qed.

Lemma quiet_gets {A} (f : PeerGroup -> A) : quiet (gets f).
Proof. intros g Hc. by exists (f g), g. Qed.

Lemma quiet_modify f :
  (forall g, connecting (f g) = connecting g /\ issued (f g) = issued g) ->
  quiet (modify f).
Proof.
  intros H g Hc. exists tt, (f g). destruct (H g) as [H1 H2].
  split; [reflexivity|]. split; congruence.
Qed.

Lemma quiet_bind {A B} (m : M A) (f : A -> M B) :
  quiet m -> (forall a, quiet (f a)) -> quiet (m ≫= f).
Proof.
  intros Hm Hf g Hc. destruct (Hm g Hc) as (a & g1 & Hr & Hc1 & Hi1).
  destruct (Hf a g1 Hc1) as (b & g2 & Hr2 & Hc2 & Hi2).
  exists b, g2. rewrite bind_unfold, Hr. split; [exact Hr2|].
  split; [exact Hc2 | congruence].
Qed.

(** [if (this.connecting) ...]: the branch is not taken. *)
Lemma quiet_if_connecting (m : M unit) :
  quiet (c ← gets connecting; when c m).
Proof.
  intros g Hc. exists tt, g. unfold gets. rewrite bind_unfold.
  cbv beta iota. by rewrite Hc.
Qed.

Lemma quiet_if_connecting_then (m k : M unit) :
  quiet k -> quiet (c ← gets connecting; when c m;; k).
Proof.
  intros Hk g Hc. unfold gets. rewrite bind_unfold. cbv beta iota.
  rewrite Hc. cbn [when]. rewrite bind_unfold. by apply Hk.
Qed.

Lemma quiet_when b (m : M unit) : quiet m -> quiet (when b m).
Proof. intros H. destruct b; [exact H | apply quiet_ret]. Qed.

Lemma quiet_for_of {A} (l : list A) body :
  Forall (fun x => quiet (body x)) l -> quiet (for_of l body).
Proof.
  induction 1 as [|x l Hx _ IH]; simpl.
  - apply quiet_ret.
  - apply quiet_bind; [exact Hx | intros _; exact IH].
Qed.

Ltac quiet_step :=
  lazymatch goal with
  | |- quiet (mret _) => apply quiet_ret
  | |- quiet (gets connecting ≫= _) =>
      first [apply quiet_if_connecting | apply quiet_if_connecting_then]
  | |- quiet (gets _) => apply quiet_gets
  | |- quiet (modify _) => apply quiet_modify; intros ?; split; reflexivity
  | |- quiet (when _ _) => apply quiet_when
  | |- quiet (_ ≫= _) => apply quiet_bind; [ | intros ? ]
  | |- quiet (if ?b then _ else _) => destruct b
  | |- quiet (match ?x with _ => _ end) => destruct x
  end.

Lemma quiet_onConnection_error cp e s : quiet (_onConnection cp (Some e) s).
Proof. unfold _onConnection, log. repeat quiet_step. Qed.

Lemma quiet_attempt_callback fuel aid e :
  quiet (attempt_callback fuel aid (Some e) None).
Proof.
  unfold attempt_callback, upd_attempt, log.
  repeat quiet_step; apply quiet_onConnection_error.
Qed.

Lemma quiet_call_handler fuel p arg h :
  h <> OnReady -> h <> OnceReadyAdd -> quiet (call_handler fuel p arg h).
Proof.
  intros H1 H2. destruct h; try done;
    unfold call_handler, peer_removeListener, peer_disconnect, upd_peer, log;
    repeat quiet_step.
Qed.

(** With a listener to hear it, an event of a peer runs the listeners. *)
Lemma peer_emit_heard fuel p ev arg g :
  (ev = EvError -> listeners ev (heap g p) <> []) ->
  peer_emit fuel p ev arg g =
  for_of (listeners ev (heap g p))
    (fun l =>
       when (l_once l)
         (upd_peer p (fun o =>
            set_listeners ev (remove_listener l (listeners ev o)) o));;
       call_handler fuel p arg (l_fn l)) g.
Proof.
  intros H. unfold peer_emit, gets. rewrite bind_unfold. cbv beta iota.
  destruct ev; try reflexivity.
  destruct (listeners EvError (heap g p)); [|reflexivity].
  by destruct H.
Qed.

(** An 'error' event nobody listens to is thrown, and changes nothing. *)
Lemma peer_emit_unheard fuel p arg g :
  on_error (heap g p) = [] ->
  peer_emit fuel p EvError arg g =
  Throw (default (ErrExternal "Unhandled error") arg) g.
Proof.
  intros H. unfold peer_emit, gets. rewrite bind_unfold. cbv beta iota.
  cbn [listeners]. by rewrite H.
Qed.

Lemma peer_emit_idle fuel p ev arg g :
  connecting g = false -> no_admission (listeners ev (heap g p)) ->
  (ev = EvError -> listeners ev (heap g p) <> []) ->
  exists g', peer_emit fuel p ev arg g = Ret tt g' /\
             connecting g' = false /\ issued g' = issued g.
Proof.
  intros Hc Hls Hh. rewrite peer_emit_heard by exact Hh.
  destruct (quiet_for_of (listeners ev (heap g p))
              (fun l =>
                 when (l_once l)
                   (upd_peer p (fun o =>
                      set_listeners ev (remove_listener l (listeners ev o)) o));;
                 call_handler fuel p arg (l_fn l))) with (g := g)
    as ([] & g' & Hr); [|exact Hc|by exists g'].
  eapply Forall_impl; [exact Hls|]. intros l [H1 H2]. simpl.
  unfold upd_peer. repeat quiet_step. by apply quiet_call_handler.
Qed.

(** X9: once [connecting] is false, nothing that fails, times out or goes
    away starts a new attempt: for any fuel, a timer firing, a socket error,
    a failed resolution, a method or a web seed calling back with an error,
    and the 'error' or 'disconnect' event of a peer (whose listeners do not
    end in [addPeer]) all return, leave [connecting] false and make no call
    of [_connectPeer].  The one event that does not return is the 'error' of
    a peer that has no 'error' listener: the emitter throws it, and the pool
    is left as it was. *)
Theorem idle_pool_never_retries (fuel : nat) (ev : Event) (g : PeerGroup) :
  connecting g = false ->
  is_failure ev = true ->
  no_admission (listeners_of ev g) ->
  exists g',
    (if unheard ev g
     then (exists e, step fuel ev g = Throw e g') /\ g' = g
     else step fuel ev g = Ret tt g') /\
    connecting g' = false /\ issued g' = issued g.
Proof.
  intros Hc Hf Hls.
  assert (forall m : M unit, quiet m ->
            exists g', m g = Ret tt g' /\ connecting g' = false /\
                       issued g' = issued g) as Hq.
  { intros m Hm. destruct (Hm g Hc) as ([] & g' & H). by exists g'. }
  destruct ev; try discriminate Hf;
    try (destruct r; try discriminate Hf);
    cbn [unheard listeners_of] in *.
  6: { destruct (on_error (heap g p)) as [|l0 ls] eqn:Hl.
       - exists g. split; [|by split]. split; [|reflexivity].
         eexists. unfold step. by apply peer_emit_unheard.
       - apply peer_emit_idle; [exact Hc | cbn [listeners]; by rewrite Hl |].
         intros _. cbn [listeners]. by rewrite Hl. }
  6: { by apply peer_emit_idle. }
  all: apply Hq; unfold step, on_timeout, on_resolve, upd_attempt, log;
    repeat quiet_step;
    first [apply quiet_attempt_callback | apply quiet_onConnection_error].
Qed.

Lemma idle_pool_never_retries_witness :
  exists g',
    step 0 (PeerDisconnects (Manual 1) None) pool_AB = Ret tt g' /\
    connecting g' = false /\ issued g' = issued pool_AB.
Proof.
  apply (idle_pool_never_retries 0 (PeerDisconnects (Manual 1) None) pool_AB).
  - reflexivity.
  - reflexivity.
  - vm_compute. repeat constructor; discriminate.
Defined.

(** ** [connect] *)

Lemma fillPeers_full fuel g : deficit g = 0%nat -> _fillPeers fuel g = Ret tt g.
Proof.
  unfold deficit, _fillPeers, gets. intros H. rewrite bind_unfold.
  cbv beta iota. by rewrite H.
Qed.

(** X10: [connect()] on a pool without web seeds sets [connecting] and
    issues as many attempts as [_numPeers] exceeds the length of the set
    (none on a full pool, which needs no discovery method); it emits nothing
    and does not touch the set. *)
Theorem connect_fills_deficit (fuel : nat) (g : PeerGroup) :
  webSeeds (_params g) = [] ->
  getPeerArray g <> [] \/ deficit g = 0%nat ->
  exists g',
    connect (S fuel) g = Ret tt g' /\
    connecting g' = true /\ peers g' = peers g /\
    issued g' = (issued g + deficit g)%nat /\
    emitted g' = emitted g.
Proof.
  intros Hw Hd. unfold connect, modify, gets. rewrite !bind_unfold.
  cbv beta iota. cbn [_params with_connecting]. rewrite Hw. simpl.
  set (g1 := with_connecting true g). destruct Hd as [Hne|H0].
  - destruct (fillPeers_returns fuel g1 Hne) as (g' & Hr & Hp & Hi & He).
    exists g'. split; [exact Hr|].
    destruct Hp as (_ & _ & Hps & _ & _ & _ & _ & Hc & _).
    split; [by rewrite <- Hc|]. split; [by rewrite <- Hps|].
    split; [exact Hi | exact He].
  - rewrite fillPeers_full by exact H0. exists g1.
    split; [reflexivity|]. rewrite H0. repeat split. simpl. lia.
Qed.

Lemma connect_fills_deficit_witness :
  exists g',
    connect 1 pool_static = Ret tt g' /\
    connecting g' = true /\ peers g' = peers pool_static /\
    issued g' = (issued pool_static + deficit pool_static)%nat /\
    emitted g' = emitted pool_static.
Proof.
  apply (connect_fills_deficit 0 pool_static);
    [reflexivity | left; vm_compute; discriminate].
Defined.

Lemma for_of_ext {A} (l : list A) (f h : A -> M unit) g :
  (forall x, f x = h x) -> for_of l f g = for_of l h g.
Proof.
  intros H. revert g. induction l as [|x l IH]; intros g; simpl; [done|].
  rewrite !bind_unfold, H. destruct (h x g); auto.
Qed.

(** X11: [connect()] on a pool with web seeds sets [connecting], asks the
    exchange to connect to every seed once, in order, and adds one 'peer'
    listener whose bound is at most 1; it issues no attempt of its own and
    does not touch the set. *)
Theorem connect_dials_web_seeds (fuel : nat) (g : PeerGroup) :
  webSeeds (_params g) <> [] ->
  exists g' n,
    connect fuel g = Ret tt g' /\
    connecting g' = true /\ peers g' = peers g /\ issued g' = issued g /\
    trace g' =
      trace g ++
      map (seed_dial (defaultWebPort (_params g))) (webSeeds (_params g)) /\
    peerListeners g' = peerListeners g ++ [{| op_i := 0; op_nSeeds := n |}] /\
    n <= 1.
Proof.
  intros Hw. unfold connect, _connectWebSeeds, modify, gets.
  rewrite !bind_unfold. cbv beta iota. cbn [_params with_connecting].
  destruct (webSeeds (_params g)) as [|w ws] eqn:Hws; [done|].
  cbn [length Nat.ltb Nat.leb]. rewrite !bind_unfold. cbv beta iota.
  cbn [_params with_connecting with_peerListeners _numPeers].
  rewrite Hws.
  rewrite (for_of_ext _ _
             (fun seed => log (seed_dial (defaultWebPort (_params g)) seed)))
    by (by intros []).
  rewrite for_of_log. eexists. eexists. split; [reflexivity|].
  repeat split. lia.
Qed.

Lemma connect_dials_web_seeds_witness :
  exists g' n,
    connect 0 (init JUndefined (fun _ => 0%nat) params_web None) = Ret tt g' /\
    connecting g' = true /\
    peers g' = [] /\ issued g' = 0%nat /\
    trace g' = [ExchangeConnect "websocket" "seed.example.com" (JNum 8192)] /\
    peerListeners g' = [{| op_i := 0; op_nSeeds := n |}] /\
    n <= 1.
Proof.
  apply (connect_dials_web_seeds 0
           (init JUndefined (fun _ => 0%nat) params_web None)).
  discriminate.
Defined.

(** X12: [_connectWebSeeds] dials every seed once, in the order of
    [params.webSeeds], and returns.  A seed given as a string is dialled
    over 'websocket', at the host name of the string, on the port of the
    string if it has one, else on [params.defaultWebPort] if that is truthy,
    else on 8192: a port that is never falsy. *)
Theorem web_seed_port (g : PeerGroup) (i : nat) (s : string) :
  webSeeds (_params g) !! i = Some (SeedString s) ->
  exists g' p,
    _connectWebSeeds g = Ret tt g' /\
    length (trace g') =
      (length (trace g) + length (webSeeds (_params g)))%nat /\
    trace g' !! (length (trace g) + i)%nat =
      Some (ExchangeConnect "websocket" (hostname (parseAddress s)) p) /\
    p = (if truthy (port (parseAddress s)) then port (parseAddress s)
         else if truthy (defaultWebPort (_params g))
              then defaultWebPort (_params g)
              else JNum 8192) /\
    truthy p = true.
Proof.
  intros Hi. unfold _connectWebSeeds, gets. rewrite !bind_unfold.
  cbv beta iota.
  rewrite (for_of_ext _ _
             (fun seed => log (seed_dial (defaultWebPort (_params g)) seed)))
    by (by intros []).
  rewrite for_of_log. eexists. eexists. split; [reflexivity|].
  cbn [trace with_trace].
  split; [by rewrite length_app, length_map|].
  split.
  - rewrite lookup_app_r by lia.
    replace (length (trace g) + i - length (trace g))%nat with i by lia.
    rewrite list_lookup_fmap, Hi. cbn [fmap option_fmap option_map seed_dial].
    cbv zeta. reflexivity.
  - unfold js_or, DEFAULT_PXP_PORT.
    destruct (truthy (port (parseAddress s))) eqn:H1; rewrite ?H1;
      [split; reflexivity || exact H1|].
    destruct (truthy (defaultWebPort (_params g))) eqn:H2; rewrite ?H2;
      split; first [reflexivity | exact H2].
Qed.

Lemma web_seed_port_witness :
  exists g',
    _connectWebSeeds pool_web_seeds = Ret tt g' /\
    trace g' !! 1%nat =
      Some (ExchangeConnect "websocket" "b.example.com" (JNum 8193)).
Proof.
  destruct (web_seed_port pool_web_seeds 1 "b.example.com:8193" eq_refl)
    as (g' & p & Hr & _ & H1 & -> & _).
  exists g'. split; [exact Hr | exact H1].
Defined.

(** X13: a 'peer' listener of [connect()] (counter 0, bound at most 1) ends
    with the first 'peer' event: it is removed and [_fillPeers] runs once,
    issuing the deficit.  So the first peer admitted after [connect()]
    starts the filling, however many web seeds or peers are configured. *)
Theorem first_peer_ends_bootstrap (fuel : nat) (p : PeerId) (c : OnPeer)
    (g : PeerGroup) :
  peerListeners g = [c] ->
  op_i c = 0 ->
  op_nSeeds c <= 1 ->
  getPeerArray g <> [] ->
  exists g',
    emit_peer (S fuel) p g = Ret tt g' /\
    peerListeners g' = [] /\ peers g' = peers g /\
    issued g' = (issued g + deficit g)%nat /\
    emitted g' = emitted g ++ [EmitPeer p].
Proof.
  intros Hl Hi Hn Hne. rewrite emit_peer_unfold, Hl. cbn [call_onPeer].
  rewrite Hi. destruct (Z.ltb_spec (0 + 1) (op_nSeeds c)) as [Hlt|_]; [lia|].
  unfold modify. rewrite !bind_unfold. cbv beta iota.
  set (g1 := with_peerListeners _ _).
  destruct (fillPeers_returns fuel g1 Hne) as (g' & Hr & Hp & Hi' & He).
  exists g'. rewrite Hr. split; [reflexivity|].
  destruct Hp as (_ & _ & Hps & _ & _ & _ & _ & _ & Hpl & _).
  split; [by rewrite <- Hpl|]. split; [by rewrite <- Hps|].
  split; [exact Hi'|]. rewrite He. subst g1. by rewrite <- emitted_emit.
Qed.

Lemma first_peer_ends_bootstrap_witness :
  exists g',
    emit_peer 1 (Dialed 0) pool_bootstrap = Ret tt g' /\
    peerListeners g' = [] /\ peers g' = peers pool_bootstrap /\
    issued g' = (issued pool_bootstrap + deficit pool_bootstrap)%nat /\
    emitted g' = emitted pool_bootstrap ++ [EmitPeer (Dialed 0)].
Proof.
  apply (first_peer_ends_bootstrap 0 (Dialed 0)
           {| op_i := 0; op_nSeeds := 1 |} pool_bootstrap);
    [reflexivity | reflexivity | vm_compute; discriminate
    | vm_compute; discriminate].
Defined.

(** ** From a socket to an admitted peer *)

Lemma upd_heap_eq p f h : upd_heap p f h p = f (h p).
Proof. unfold upd_heap. by rewrite decide_True. Qed.

Lemma upd_heap_ne p q f h : q <> p -> upd_heap p f h q = h q.
Proof. intros H. unfold upd_heap. by rewrite decide_False. Qed.

(** X14: a socket handed over by a web seed or by an incoming exchange
    peer becomes a new peer object that waits for its handshake: it is not in
    the set, nothing is emitted or issued, and no other peer object is
    touched.  An outgoing exchange peer is ignored. *)
Theorem socket_becomes_waiting_peer (fuel : nat) (s : Socket) (g : PeerGroup) :
  step fuel (ExchangePeer false s) g = Ret tt g /\
  forall ev, ev = SeedConnected (inr s) \/ ev = ExchangePeer true s ->
    exists g',
      step fuel ev g = Ret tt g' /\
      heap g' (Dialed (next_peer g)) = waiting_peer false (Some s) /\
      (forall q, q <> Dialed (next_peer g) -> heap g' q = heap g q) /\
      next_peer g' = S (next_peer g) /\
      peers g' = peers g /\ trace g' = trace g /\ issued g' = issued g /\
      attempts g' = attempts g.
Proof.
  split; [reflexivity|].
  intros ev [-> | ->]; cbn [step]; unfold _onConnection, new_Peer, peer_once,
    upd_peer, modify, gets;
    repeat (rewrite bind_unfold; cbv beta iota);
    (eexists; split; [reflexivity|]);
    cbn [heap with_heap with_next_peer next_peer peers trace issued attempts];
    (split; [by rewrite !upd_heap_eq|]);
    (split; [intros q Hq; by rewrite !upd_heap_ne by exact Hq|]);
    repeat split.
Qed.

(** X15: when a waiting peer becomes ready (no hard limit, no 'peer'
    listener of [connect()] pending) it is admitted once: appended to the
    set, announced by one 'peer' event, its waiting listeners replaced by
    the 'disconnect' and 'error' listeners of [addPeer]; no other peer object
    is touched. *)
Theorem ready_admits_once (fuel : nat) (p : PeerId) (r : bool)
    (s : option Socket) (g : PeerGroup) :
  heap g p = waiting_peer r s ->
  truthy (_hardLimit g) = false ->
  peerListeners g = [] ->
  exists g',
    step fuel (PeerIsReady p) g = Ret tt g' /\
    peers g' = peers g ++ [p] /\
    trace g' = trace g ++ [EmitPeer p] /\
    heap g' p = admitted_peer s /\
    (forall q, q <> p -> heap g' q = heap g q).
Proof.
  intros H Hh Hl.
  unfold step, upd_peer, modify. rewrite bind_unfold. cbv beta iota.
  unfold peer_emit, gets. rewrite bind_unfold. cbv beta iota.
  cbn [heap with_heap listeners]. rewrite upd_heap_eq, H.
  cbn [on_ready set_ready waiting_peer for_of l_once l_fn when].
  cbn [call_handler]. unfold peer_removeListener, upd_peer, modify.
  repeat (rewrite bind_unfold; cbv beta iota).
  set (g4 := with_heap _ (with_heap _ (with_heap _ (with_heap _ g)))).
  assert (heap g4 p =
          {| ready := true; socket := s; on_error := []; on_disconnect := [];
             on_ready := [] |}) as H4.
  { subst g4. cbn [heap with_heap]. rewrite !upd_heap_eq, H. reflexivity. }
  assert (forall q, q <> p -> heap g4 q = heap g q) as H4'.
  { intros q Hq. subst g4. cbn [heap with_heap].
    by rewrite !upd_heap_ne by exact Hq. }
  rewrite addPeer_unfold, emit_peer_unfold.
  pose proof (admitted_frame p g4) as (Hpl & _).
  rewrite Hpl. change (peerListeners g4) with (peerListeners g). rewrite Hl.
  cbn [call_onPeer]. eexists. split; [reflexivity|].
  unfold admitted, overflows. rewrite H4.
  change (_hardLimit g4) with (_hardLimit g). rewrite Hh.
  cbn [andb ready peers trace heap with_heap with_peers with_trace].
  repeat split.
  - by rewrite !upd_heap_eq, H4.
  - intros q Hq. rewrite !upd_heap_ne by exact Hq. by apply H4'.
Qed.

Lemma ready_admits_once_witness :
  heap pool_waiting (Dialed 0) = waiting_peer false (Some (ExchangeSocket 0)) /\
  exists g',
    step 0 (PeerIsReady (Dialed 0)) pool_waiting = Ret tt g' /\
    peers g' = peers pool_waiting ++ [Dialed 0] /\
    trace g' = trace pool_waiting ++ [EmitPeer (Dialed 0)] /\
    heap g' (Dialed 0) = admitted_peer (Some (ExchangeSocket 0)) /\
    (forall q, q <> Dialed 0 -> heap g' q = heap pool_waiting q).
Proof.
  split; [reflexivity|].
  apply (ready_admits_once 0 (Dialed 0) false (Some (ExchangeSocket 0))
           pool_waiting); reflexivity.
Defined.

(** ** Failures of a peer *)

(** [if (this.connecting) this._connectPeer()] *)
Lemma chain_returns fuel g :
  can_chain g ->
  exists g',
    (c ← gets connecting; when c (_connectPeer (S fuel))) g = Ret tt g' /\
    same_pool g g' /\ emitted g' = emitted g /\
    issued g' = (issued g + if connecting g then 1 else 0)%nat.
Proof.
  intros Hc. unfold gets. rewrite bind_unfold. cbv beta iota.
  destruct (connecting g) eqn:Hcon; cbn [when].
  - destruct Hc as [Hc|Hne]; [congruence|].
    destruct (connectPeer_returns fuel g Hne) as (g' & Hr & Hp & Hi & He).
    exists g'. split; [exact Hr|]. split; [exact Hp|].
    split; [exact He | lia].
  - exists g. split; [reflexivity|]. split; [reflexivity|].
    split; [reflexivity | lia].
Qed.

(** X16: a waiting peer that fails or disconnects before it is ready is
    reported by exactly one 'connectError' carrying the peer and the error
    ('Connection error' when the event has none); the set is unchanged and,
    while the pool is connecting, one new call of [_connectPeer] follows.
    Both failure listeners are gone afterwards: a later 'disconnect' of the
    peer does nothing, and a later 'error' finds no listener and is thrown
    by the emitter, the pool being left as it is. *)
Theorem waiting_peer_fails_once (fuel : nat) (p : PeerId) (r : bool)
    (s : option Socket) (e : option Error) (ev : Event) (g : PeerGroup) :
  heap g p = waiting_peer r s ->
  ev = PeerFails p e \/ ev = PeerDisconnects p e ->
  can_chain g ->
  exists g',
    step (S fuel) ev g = Ret tt g' /\
    emitted g' =
      emitted g ++ [EmitConnectError (default ErrConnection e) (Some p)] /\
    peers g' = peers g /\
    issued g' = (issued g + if connecting g then 1 else 0)%nat /\
    on_error (heap g' p) = [] /\ on_disconnect (heap g' p) = [] /\
    forall fuel' e',
      step fuel' (PeerDisconnects p e') g' = Ret tt g' /\
      step fuel' (PeerFails p e') g' =
        Throw (default (ErrExternal "Unhandled error") e') g'.
Proof.
  intros H Hev Hc.
  assert (forall g', heap g' p =
            {| ready := r; socket := s; on_error := []; on_disconnect := [];
               on_ready := [{| l_fn := OnReady; l_once := true |}] |} ->
          on_error (heap g' p) = [] /\ on_disconnect (heap g' p) = [] /\
          forall fuel' e',
            step fuel' (PeerDisconnects p e') g' = Ret tt g' /\
            step fuel' (PeerFails p e') g' =
              Throw (default (ErrExternal "Unhandled error") e') g') as Hdone.
  { intros g' Hg'. split; [by rewrite Hg'|]. split; [by rewrite Hg'|].
    intros fuel' e'. unfold step, peer_emit, gets.
    rewrite !bind_unfold. cbv beta iota. cbn [listeners]. by rewrite Hg'. }
  destruct Hev as [-> | ->];
    unfold step at 1, peer_emit, gets; rewrite bind_unfold; cbv beta iota;
    cbn [listeners]; rewrite H;
    cbn [on_error on_disconnect waiting_peer for_of l_once l_fn when
         call_handler];
    unfold peer_removeListener, upd_peer, log, modify, gets;
    repeat (rewrite bind_unfold; cbv beta iota);
    cbn [connecting with_trace with_heap heap trace];
    (destruct (connecting g) eqn:Hcon; cbn [when];
     [ destruct Hc as [Hc|Hne]; [congruence|];
       match goal with
       | |- context [_connectPeer (S fuel) ?g4] =>
           destruct (connectPeer_returns fuel g4 Hne)
             as (g' & Hr & Hp & Hi & He);
           exists g'; rewrite Hr;
           destruct Hp as (_ & _ & Hps & _ & _ & _ & _ & _ & _ & _ & _ & Hh & _);
           split; [reflexivity|];
           split; [rewrite He; unfold emitted; cbn [trace with_trace];
                   by rewrite filter_app|];
           split; [by rewrite <- Hps|];
           split; [rewrite Hi; simpl; lia|];
           apply Hdone; rewrite <- Hh; cbn [heap with_heap with_trace];
           by rewrite !upd_heap_eq, H
       end
     | eexists; split; [reflexivity|];
       split; [unfold emitted; cbn [trace with_trace]; by rewrite filter_app|];
       split; [reflexivity|];
       split; [simpl; lia|];
       apply Hdone; cbn [heap with_heap with_trace];
       by rewrite !upd_heap_eq, H ]).
Qed.

Lemma waiting_peer_fails_once_witness :
  exists g',
    step 1 (PeerDisconnects (Dialed 0) None) pool_waiting = Ret tt g' /\
    emitted g' =
      emitted pool_waiting ++ [EmitConnectError ErrConnection (Some (Dialed 0))] /\
    peers g' = peers pool_waiting /\
    issued g' = issued pool_waiting /\
    step 1 (PeerDisconnects (Dialed 0) None) g' = Ret tt g' /\
    step 1 (PeerFails (Dialed 0) None) g' =
      Throw (ErrExternal "Unhandled error") g'.
Proof.
  destruct (waiting_peer_fails_once 0 (Dialed 0) false
              (Some (ExchangeSocket 0)) None
              (PeerDisconnects (Dialed 0) None) pool_waiting)
    as (g' & Hr & He & Hp & Hi & _ & _ & Hdone);
    [reflexivity | right; reflexivity | left; reflexivity |].
  exists g'. split; [exact Hr|]. split; [exact He|]. split; [exact Hp|].
  split; [rewrite Hi; simpl; lia|].
  split; apply (Hdone 1%nat None).
Defined.

(** X17: an 'error' of an admitted peer is reported by 'peerError' and
    answered by one call of [peer.disconnect()]; the peer stays in the set
    (only its 'disconnect' event removes it) and the listener stays, so a
    second error is reported and answered in the same way. *)
Theorem admitted_peer_error (fuel : nat) (p : PeerId) (s : option Socket)
    (e : option Error) (g : PeerGroup) :
  heap g p = admitted_peer s ->
  exists g',
    step fuel (PeerFails p e) g = Ret tt g' /\
    trace g' = trace g ++ [EmitPeerError e; PeerDisconnect p] /\
    peers g' = peers g /\ heap g' = heap g /\ issued g' = issued g.
Proof.
  intros H. unfold step, peer_emit, gets. rewrite bind_unfold.
  cbv beta iota. cbn [listeners]. rewrite H.
  cbn [on_error admitted_peer for_of l_once l_fn when call_handler].
  unfold peer_disconnect, log, modify.
  repeat (rewrite bind_unfold; cbv beta iota).
  eexists. split; [reflexivity|]. simpl. rewrite <- app_assoc. by repeat split.
Qed.

Lemma admitted_peer_error_witness :
  exists g',
    step 0 (PeerFails (Dialed 0) (Some (ErrExternal "ETIMEDOUT"))) pool_admitted
      = Ret tt g' /\
    trace g' =
      trace pool_admitted ++
      [EmitPeerError (Some (ErrExternal "ETIMEDOUT")); PeerDisconnect (Dialed 0)] /\
    peers g' = [Dialed 0].
Proof.
  destruct (admitted_peer_error 0 (Dialed 0) (Some (ExchangeSocket 0))
              (Some (ErrExternal "ETIMEDOUT")) pool_admitted)
    as (g' & Hr & Ht & Hp & _); [reflexivity|].
  exists g'. split; [exact Hr|]. split; [exact Ht|]. by rewrite Hp.
Defined.

(** ** Removal of a peer that is in the set *)

(** X18: the 'disconnect' event of an admitted peer that is in the set
    removes its first occurrence and nothing else: the peers before and
    after it keep their order.  'disconnect' is emitted once, the listener
    is gone, and while the pool is connecting the deficit is issued. *)
Theorem disconnect_removes_the_peer (fuel : nat) (p : PeerId)
    (s : option Socket) (e : option Error) (l1 l2 : list PeerId)
    (g : PeerGroup) :
  heap g p = admitted_peer s ->
  peers g = l1 ++ p :: l2 ->
  p ∉ l1 ->
  can_chain g ->
  exists g',
    step (S fuel) (PeerDisconnects p e) g = Ret tt g' /\
    peers g' = l1 ++ l2 /\
    emitted g' = emitted g ++ [EmitDisconnect p] /\
    on_disconnect (heap g' p) = [] /\
    issued g' =
      (issued g +
       if connecting g
       then Z.to_nat (_numPeers g - Z.of_nat (length (l1 ++ l2)))
       else 0)%nat.
Proof.
  intros H Hps Hp Hc.
  unfold step, peer_emit, gets. rewrite bind_unfold. cbv beta iota.
  cbn [listeners]. rewrite H.
  cbn [on_disconnect admitted_peer for_of l_once l_fn when].
  unfold upd_peer, modify. repeat (rewrite bind_unfold; cbv beta iota).
  set (g1 := with_heap _ g).
  assert (on_disconnect (heap g1 p) = []) as Hod
    by (subst g1; cbn [heap with_heap]; by rewrite upd_heap_eq, H).
  destruct (connecting g) eqn:Hcon.
  - destruct Hc as [Hc|Hne]; [congruence|].
    destruct (OnDisconnect_returns fuel g1 p e Hcon Hne)
      as (g' & Hr & Hp' & Hi & He & Hh).
    exists g'. rewrite Hr. split; [reflexivity|].
    change (peers g1) with (peers g) in Hp'.
    rewrite Hps, splice1_present in Hp' by exact Hp.
    split; [exact Hp'|]. split; [exact He|]. split; [by rewrite Hh|].
    by rewrite Hi, Hp'.
  - unfold call_handler, log, modify, gets.
    repeat (rewrite bind_unfold; cbv beta iota).
    cbn [connecting with_peers]. change (connecting g1) with (connecting g).
    rewrite Hcon. cbn [when]. repeat (rewrite bind_unfold; cbv beta iota).
    eexists. split; [reflexivity|].
    cbn [peers heap with_trace with_peers issued].
    change (peers g1) with (peers g). rewrite Hps, splice1_present by exact Hp.
    split; [reflexivity|]. split; [|split; [exact Hod | simpl; lia]].
    unfold emitted. cbn [trace with_trace with_peers].
    change (trace g1) with (trace g). by rewrite filter_app.
Qed.

Lemma disconnect_removes_the_peer_witness :
  exists g',
    step 1 (PeerDisconnects (Dialed 0) None) pool_admitted = Ret tt g' /\
    peers g' = [] /\
    emitted g' = emitted pool_admitted ++ [EmitDisconnect (Dialed 0)].
Proof.
  destruct (disconnect_removes_the_peer 0 (Dialed 0)
              (Some (ExchangeSocket 0)) None [] [] pool_admitted)
    as (g' & Hr & Hp & He & _);
    [reflexivity | reflexivity | apply not_elem_of_nil | left; reflexivity |].
  exists g'. split; [exact Hr|]. split; [exact Hp | exact He].
Defined.

(** ** Admission without the hard limit *)

(** X19: without the hard limit [addPeer] never evicts: whenever it returns
    the new peer is appended and 'peer' emitted, whatever the length of the
    set, which may so grow beyond [_numPeers].  It returns whenever no
    'peer' listener of [connect()] is pending or a discovery method is
    there. *)
Theorem addPeer_without_limit_appends (fuel : nat) (g : PeerGroup)
    (p : PeerId) :
  truthy (_hardLimit g) = false ->
  (peerListeners g = [] \/ getPeerArray g <> [] ->
   exists g', addPeer (S fuel) p g = Ret tt g') /\
  (forall fuel' g',
     addPeer fuel' p g = Ret tt g' ->
     peers g' = peers g ++ [p] /\
     exists tl, trace g' = trace g ++ EmitPeer p :: tl).
Proof.
  intros Hh. split.
  - intros Hret. rewrite addPeer_unfold. apply emit_peer_returns.
    pose proof (admitted_frame p g) as (-> & -> & _). exact Hret.
  - intros fuel' g' Hr. rewrite addPeer_unfold in Hr.
    pose proof (preserves_emit_peer (same peers) _ _ _ _ _ Hr) as Hp.
    unfold same in Hp. rewrite emit_peer_unfold in Hr.
    apply (preserves_call_onPeer trace_grows) in Hr as [tl Ht].
    simpl in Ht. rewrite <- Hp, Ht.
    pose proof (admitted_peers p g) as Ha. unfold overflows in Ha.
    rewrite Hh in Ha. simpl in Ha. destruct Ha as [-> ->].
    split; [reflexivity|]. exists tl. by rewrite <- app_assoc.
Qed.

Lemma addPeer_without_limit_appends_witness :
  _numPeers pool_over_target = 1 /\
  exists g',
    addPeer 1 (Manual 2) pool_over_target = Ret tt g' /\
    peers g' = [Manual 0; Manual 1; Manual 2].
Proof.
  split; [reflexivity|].
  destruct (addPeer_without_limit_appends 0 pool_over_target (Manual 2))
    as [Hret Hpost]; [reflexivity|].
  destruct Hret as [g' Hg']; [left; reflexivity|].
  exists g'. split; [exact Hg'|].
  by destruct (Hpost 1%nat g' Hg') as [-> _].
Defined.

(** ** Starting an attempt *)

Global Instance attempts_kept_preorder : PreOrder attempts_kept.
Proof.
  split.
  - intros g aid x Hx. by exists x.
  - intros g1 g2 g3 H12 H23 aid x Hx.
    destruct (H12 aid x Hx) as (y & Hy & ? & ? & ?).
    destruct (H23 aid y Hy) as (z & Hz & ? & ? & ?).
    exists z. repeat split; congruence.
Qed.

Global Instance attempts_kept_method : MethodFrame attempts_kept.
Proof.
  split; [apply _ | ..].
  - intros e g _ aid x Hx. by exists x.
  - intros n g aid x Hx. by exists x.
  - intros x g aid y Hy. exists y. simpl.
    rewrite lookup_app_l by (by eapply lookup_lt_Some). by repeat split.
  - intros aid p g i x Hx. simpl. destruct (decide (i = aid)) as [->|Hne].
    + exists (set_phase p x). rewrite list_lookup_alter_eq, Hx.
      by repeat split.
    + exists x. rewrite list_lookup_alter_ne by done. by repeat split.
Qed.

Lemma call_method_length m aid :
  preserves (same (fun g => length (attempts g))) (call_method m aid).
Proof.
  unfold call_method, _connectDNSPeer, _connectStaticPeer, _connectTCP,
    getRandom, log, upd_attempt.
  repeat preserves_step; unfold same; simpl; by rewrite ?length_alter.
Qed.

(** X20: with a discovery method to choose from, one call of
    [_connectPeer] starts exactly one attempt, numbered after the ones
    there, with a method of the eligible ones, [timedOut] false, and a timer
    exactly when [connectTimeout] is truthy; the attempts already there keep
    their method, timer and [timedOut]. *)
Theorem connectPeer_starts_one_attempt (fuel : nat) (g : PeerGroup) :
  getPeerArray g <> [] ->
  exists g' a,
    _connectPeer (S fuel) g = Ret tt g' /\
    attempts g' !! length (attempts g) = Some a /\
    length (attempts g') = S (length (attempts g)) /\
    a_method a ∈ getPeerArray g /\
    a_timedOut a = false /\
    a_timer a = (if truthy (connectTimeout g) then Armed else NoTimer) /\
    attempts_kept g g'.
Proof.
  intros Hne. rewrite connectPeer_unfold.
  destruct (decide _) as [H0|_]; [by apply length_zero_iff_nil in H0|].
  cbv zeta. set (g0 := with_issued _ g).
  destruct (getRandom_nonempty _ g0 Hne) as (m & Hin & Hr).
  unfold start_attempt. rewrite bind_unfold, Hr. subst g0. cbv beta iota.
  assert (forall t g2 g',
    attempts g2 =
      attempts g ++
      [{| a_method := m; a_timer := t; a_timedOut := false; a_phase := Idle |}] ->
    call_method m (length (attempts g)) g2 = Ret tt g' ->
    exists a,
      attempts g' !! length (attempts g) = Some a /\
      length (attempts g') = S (length (attempts g)) /\
      a_method a ∈ getPeerArray g /\
      a_timedOut a = false /\ a_timer a = t /\ attempts_kept g g') as Hcall.
  { intros t g2 g' Hg2 Hcm.
    pose proof (preserves_call_method attempts_kept _ _ _ _ _ Hcm) as Hk.
    pose proof (call_method_length _ _ _ _ _ Hcm) as Hlen. unfold same in Hlen.
    destruct (Hk (length (attempts g))
                {| a_method := m; a_timer := t; a_timedOut := false;
                   a_phase := Idle |}) as (a & Ha & Hm & Ht & Hto).
    { rewrite Hg2. by rewrite list_lookup_middle. }
    exists a. split; [exact Ha|]. split.
    { rewrite <- Hlen, Hg2, length_app. simpl. lia. }
    split; [by rewrite Hm|]. split; [by rewrite Hto|]. split; [by rewrite Ht|].
    intros i x Hx. destruct (Hk i x) as (y & Hy & ?).
    - rewrite Hg2. by rewrite lookup_app_l by (by eapply lookup_lt_Some).
    - by exists y. }
  unfold gets at 1. rewrite bind_unfold. cbv beta iota.
  cbn [connectTimeout with_draws with_issued].
  destruct (truthy (connectTimeout g)) eqn:Hto; cbn [negb];
    unfold new_attempt, gets, modify, mret, M_ret;
    repeat (rewrite bind_unfold; cbv beta iota);
    try (unfold log at 1, modify; repeat (rewrite bind_unfold; cbv beta iota));
    cbn [attempts with_draws with_issued with_attempts with_trace];
    match goal with
    | |- context [call_method m _ ?g2] =>
        destruct (call_method_returns m (length (attempts g)) g2 Hin)
          as [g' Hg'];
        first [ destruct (Hcall Armed g2 g' eq_refl Hg') as (a & Ha)
              | destruct (Hcall NoTimer g2 g' eq_refl Hg') as (a & Ha) ];
        exists g', a; split; [exact Hg' | exact Ha]
    end.
Qed.

Lemma connectPeer_starts_one_attempt_witness :
  exists g' a,
    _connectPeer 1 pool_static = Ret tt g' /\
    attempts g' !! 0%nat = Some a /\
    length (attempts g') = 1%nat /\
    a_method a ∈ [StaticPeer] /\ a_timedOut a = false /\ a_timer a = Armed.
Proof.
  destruct (connectPeer_starts_one_attempt 0 pool_static)
    as (g' & a & Hr & Ha & Hl & Hm & Hto & Ht & _);
    [vm_compute; discriminate|].
  exists g', a. repeat split; assumption.
Defined.

(** ** The DNS dialer *)

(** X21: when [dns.resolve] answers with addresses, [_connectDNSPeer] dials
    one of them on [params.defaultPort], with a socket timeout of 10 seconds,
    and waits for the socket; nothing is emitted and the set is untouched.
    The dial is made whether or not the timer of the attempt has fired
    meanwhile. *)
Theorem dns_resolution_dials (fuel aid : nat) (addresses : list string)
    (g : PeerGroup) :
  phase_of aid g = Some Resolving ->
  addresses <> [] ->
  exists host g',
    host ∈ addresses /\
    step fuel (DnsResolved aid (inr addresses)) g = Ret tt g' /\
    trace g' =
      trace g ++
      [NetConnect (defaultPort (_params g)) (Some host) (TcpSocket aid);
       SocketSetTimeout (TcpSocket aid) 10000] /\
    phase_of aid g' = Some (Connecting true true) /\
    timer_of aid g' = timer_of aid g /\
    peers g' = peers g /\ issued g' = issued g.
Proof.
  intros Hph Hne.
  destruct (getRandom_nonempty addresses g Hne) as (host & Hin & Hr).
  exists host. unfold step, gets. rewrite bind_unfold. cbv beta iota.
  rewrite Hph. unfold on_resolve. rewrite bind_unfold, Hr.
  unfold _connectTCP, log, upd_attempt, modify, gets.
  repeat (rewrite bind_unfold; cbv beta iota).
  eexists. split; [exact Hin|]. split; [reflexivity|].
  unfold phase_of, timer_of in *. simpl. rewrite list_lookup_alter_eq.
  destruct (attempts g !! aid) as [a|]; [|discriminate Hph].
  rewrite <- app_assoc. by repeat split.
Qed.

Lemma dns_resolution_dials_witness :
  exists host g',
    host ∈ ["203.0.113.7"] /\
    step 0 (DnsResolved 0 (inr ["203.0.113.7"])) pool_resolving = Ret tt g' /\
    trace g' =
      trace pool_resolving ++
      [NetConnect (JNum 8333) (Some host) (TcpSocket 0);
       SocketSetTimeout (TcpSocket 0) 10000].
Proof.
  destruct (dns_resolution_dials 0 0 ["203.0.113.7"] pool_resolving)
    as (host & g' & Hin & Hr & Ht & _); [reflexivity | discriminate |].
  exists host, g'. split; [exact Hin|]. split; [exact Hr | exact Ht].
Defined.
